(** * triplet-reid: the PK-batch sampler and the driver of [train.py]

    A shallow embedding of [src/train.py]: the K-selector
    [sample_k_fids_for_pid], the [tf.data] pipeline that [main] builds on
    top of it, the argument prologue of [main] (resume / fresh start) and
    the main training loop with its checkpoint policy.

    Conventions.
    - PIDs and FIDs are strings, as [common.load_dataset] reads them from
      the csv file; sizes and counts are [nat].
    - TensorFlow's random ops draw from a pseudo-random source.  That
      source is an explicit state [rng], a finite list of draws which is
      consumed from the left (an exhausted source keeps yielding 0).  All
      statements quantify over every state of the source.
    - Python and TensorFlow exceptions are values of [exn]; code that can
      raise returns a [result].
    - Sizes are unbounded naturals: the limits of int32 tensors are not
      modelled.  The float32 quotient of the K-selector is computed with
      its rounding (see [f32_ceil_quotient]). *)

From stdpp Require Import gmap strings list fin_maps sorting.
From Stdlib Require Import ZArith QArith Lia.

Local Open Scope string_scope.
Local Open Scope list_scope.
Local Open Scope nat_scope.

(** ** Exceptions and results *)

Inductive exn : Type :=
  | IOError (msg : string)
  | ZeroDivisionError
  | UnboundLocalError (var : string)
  | AttributeError (attr : string)
  | NotADirectoryError
  | ValueError
  | TypeError
  | InvalidArgumentError
  | OutOfRangeError
  | SystemExit (code : Z).

Inductive result (A : Type) : Type :=
  | Ok (a : A)
  | Raise (e : exn).

Arguments Ok {A} a.
Arguments Raise {A} e.

(** ** State and exceptions

    A computation over a state [S] either yields a value or raises; the
    state reached so far is kept in both cases. *)

Definition ST (S A : Type) : Type := S → result A * S.

Definition op_ret {S A} (a : A) : ST S A := λ s, (Ok a, s).

Definition op_raise {S A} (e : exn) : ST S A := λ s, (Raise e, s).

Definition op_bind {S A B} (m : ST S A) (k : A → ST S B) : ST S B :=
  λ s, match m s with
       | (Ok a, s') => k a s'
       | (Raise e, s') => (Raise e, s')
       end.

(** The pseudo-random source, and the operations of the TensorFlow graph
    which read it. *)
Definition rng : Type := list nat.

Definition Op (A : Type) : Type := ST rng A.

Notation "'do' x <- m ; k" := (op_bind m (λ x, k))
  (at level 10, x name, m at level 100, k at level 200,
   format "'[v' 'do'  x  <-  m ; '/' k ']'").

(** A uniform draw from [0, bound). *)
Definition draw (bound : nat) : Op nat :=
  λ s, match s with
       | [] => (Ok 0, [])
       | r :: s' => (Ok (r mod bound), s')
       end.

Fixpoint op_mapM {S A B} (f : A → ST S B) (l : list A) : ST S (list B) :=
  match l with
  | [] => op_ret []
  | x :: l' =>
      do y <- f x;
      do ys <- op_mapM f l';
      op_ret (y :: ys)
  end.

(** ** TensorFlow and numpy primitives used by the sampler *)

(** The shuffle of [Dataset.shuffle(buffer_size)]: the buffer is filled
    with the first [buffer_size] elements; each output is drawn from the
    buffer and replaced by the next input element, if any. *)
Fixpoint shuffle_buffer {A} (fuel : nat) (buffer input : list A) : Op (list A) :=
  match fuel with
  | 0 => op_ret []
  | S fuel' =>
      do i <- draw (length buffer);
      match buffer !! i with
      | Some x =>
          do rest <-
            match input with
            | y :: input' => shuffle_buffer fuel' (<[i:=y]> buffer) input'
            | [] => shuffle_buffer fuel' (delete i buffer) []
            end;
          op_ret (x :: rest)
      | None => op_ret []
      end
  end.

(** [tf.random.shuffle]: every element competes from the start. *)
Definition random_shuffle {A} (l : list A) : Op (list A) :=
  shuffle_buffer (length l) l [].

(** [tf.boolean_mask]: the mask must have the shape of the tensor. *)
Fixpoint mask_select {A} (tensor : list A) (mask : list bool) : list A :=
  match tensor, mask with
  | x :: t, b :: m => if b then x :: mask_select t m else mask_select t m
  | _, _ => []
  end.

Definition boolean_mask {A} (tensor : list A) (mask : list bool) : Op (list A) :=
  if decide (length tensor = length mask)
  then op_ret (mask_select tensor mask)
  else op_raise InvalidArgumentError.

(** [tf.gather]: every index must be in range. *)
Fixpoint gather {A} (params : list A) (indices : list nat) : Op (list A) :=
  match indices with
  | [] => op_ret []
  | i :: rest =>
      match params !! i with
      | Some x => do xs <- gather params rest; op_ret (x :: xs)
      | None => op_raise InvalidArgumentError
      end
  end.

(** ** The float32 quotient

    [batch_k / tf.cast(count, tf.float32)] converts both operands to
    float32 and divides there.  A float32 has a significand of 24 bits;
    conversion and division round to the nearest representable value,
    ties to the even significand.  The values met here are positive; they
    are kept as exact numbers, a converted integer as the integer it
    denotes.  The exponent range of float32 (about 2^127) is not
    modelled. *)

(** The integer nearest to [a / b], ties to even. *)
Definition round_half_even (a b : Z) : Z :=
  let q := (a / b)%Z in
  let r := (a mod b)%Z in
  if (2 * r <? b)%Z then q
  else if (b <? 2 * r)%Z then (q + 1)%Z
  else if Z.even q then q else (q + 1)%Z.

(** [tf.cast(n, tf.float32)] for [0 <= n]: integers below 2^24 are kept;
    above, the value is rounded to 24 significant bits. *)
Definition f32_of_int (n : Z) : Z :=
  if (n <? 2 ^ 24)%Z then n
  else
    let ulp := (2 ^ (Z.log2 n - 23))%Z in
    (round_half_even n ulp * ulp)%Z.

(** The binary exponent [e] of the exact quotient of positive [a] and
    [b]: [2^e <= a / b < 2^(e+1)]. *)
Definition quotient_exponent (a b : Z) : Z :=
  if (b <=? a)%Z then Z.log2 (a / b)
  else (- Z.log2_up ((b + a - 1) / a))%Z.

(** [tf.math.ceil(a / b)] on float32 values [a] and [b]: the quotient is
    rounded to a significand [m] of 24 bits at exponent [e], that is to
    [m * 2^(e - 23)]; the ceiling of that value is returned. *)
Definition f32_div_ceil (a b : Z) : Z :=
  let e := quotient_exponent a b in
  if (e <=? 23)%Z then
    let m := round_half_even (a * 2 ^ (23 - e)) b in
    ((m + 2 ^ (23 - e) - 1) / 2 ^ (23 - e))%Z
  else
    (round_half_even a (b * 2 ^ (e - 23)) * 2 ^ (e - 23))%Z.

(** [tf.cast(tf.math.ceil(batch_k / tf.cast(count, tf.float32)), tf.int32)].
    For [count = 0] the quotient is infinite or not a number, and the
    product with [count] in the K-selector is 0 whatever the cast yields;
    the value 0 stands for it. *)
Definition f32_ceil_quotient (batch_k count : nat) : nat :=
  if decide (count = 0) then 0
  else if decide (batch_k = 0) then 0
  else Z.to_nat (f32_div_ceil (f32_of_int (Z.of_nat batch_k))
                              (f32_of_int (Z.of_nat count))).

(** [tf.math.mod(tf.range(padded_count), count)] *)
Definition full_range (padded_count count : nat) : list nat :=
  (λ i, i mod count) <$> seq 0 padded_count.

(** ** The K-selector *)

Definition sample_k_fids_for_pid (pid : string) (all_fids all_pids : list string)
    (batch_k : nat) : Op (list string * list string) :=
  do possible_fids <-
    boolean_mask all_fids ((λ p, bool_decide (p = pid)) <$> all_pids);
  let count := length possible_fids in
  let padded_count := f32_ceil_quotient batch_k count * count in
  do shuffled <- random_shuffle (full_range padded_count count);
  do selected_fids <- gather possible_fids (take batch_k shuffled);
  op_ret (selected_fids, replicate batch_k pid).

(** The FIDs of the requested identity: the value of [possible_fids] in
    [sample_k_fids_for_pid]. *)
Definition possible_fids_of (pid : string) (all_fids all_pids : list string)
    : list string :=
  mask_select all_fids ((λ p, bool_decide (p = pid)) <$> all_pids).

(** [np.unique]: the sorted distinct values. *)
Definition string_le (x y : string) : Prop := String.leb x y = true.

#[global] Instance string_le_dec (x y : string) : Decision (string_le x y) :=
  decide (String.leb x y = true).

Definition np_unique (l : list string) : list string :=
  merge_sort string_le (remove_dups l).

(** Python's [a // b] on non-negative integers. *)
Definition py_floordiv {S} (a b : nat) : ST S nat :=
  if decide (b = 0) then op_raise ZeroDivisionError else op_ret (a / b).

(** ** The [tf.data] pipeline

    A dataset is the operation that runs one full iteration over it and
    yields its elements in order.  [Dataset.repeat(None)] has no last
    element; it is [ds_repeat epochs] for an arbitrary number of epochs,
    whose outputs are the prefixes of the endless stream. *)

Definition Dataset (A : Type) : Type := Op (list A).

Definition from_tensor_slices {A} (l : list A) : Dataset A := op_ret l.

(** [Dataset.shuffle(buffer_size)] on the elements of one iteration. *)
Definition ds_shuffle {A} (buffer_size : nat) (ds : Dataset A) : Dataset A :=
  if decide (buffer_size = 0) then op_raise InvalidArgumentError
  else
    do l <- ds;
    shuffle_buffer (length l) (take buffer_size l) (drop buffer_size l).

Definition ds_take {A} (n : nat) (ds : Dataset A) : Dataset A :=
  do l <- ds; op_ret (take n l).

(** [Dataset.repeat]: an iteration of the input that yields nothing ends
    the repetition. *)
Fixpoint ds_repeat {A} (epochs : nat) (ds : Dataset A) : Dataset A :=
  match epochs with
  | 0 => op_ret []
  | S epochs' =>
      do l <- ds;
      match l with
      | [] => op_ret []
      | _ => do rest <- ds_repeat epochs' ds; op_ret (l ++ rest)
      end
  end.

Definition ds_map {A B} (f : A → Op B) (ds : Dataset A) : Dataset B :=
  do l <- ds; op_mapM f l.

(** [Dataset.unbatch] on pairs of tensors: both components are split
    along their first dimension, which must agree. *)
Definition unbatch_element {A B} (e : list A * list B) : Op (list (A * B)) :=
  if decide (length e.1 = length e.2)
  then op_ret (zip e.1 e.2)
  else op_raise InvalidArgumentError.

Definition ds_unbatch {A B} (ds : Dataset (list A * list B)) : Dataset (A * B) :=
  do l <- ds;
  do parts <- op_mapM unbatch_element l;
  op_ret (concat parts).

(** [Dataset.batch(batch_size)] with [drop_remainder=False]: consecutive
    groups of [batch_size] elements, the last one possibly shorter. *)
Fixpoint chunks_from {A} (fuel n : nat) (l : list A) : list (list A) :=
  match fuel with
  | 0 => []
  | S fuel' =>
      match l with
      | [] => []
      | _ => take n l :: chunks_from fuel' n (drop n l)
      end
  end.

Definition ds_batch {A} (batch_size : nat) (ds : Dataset A) : Dataset (list A) :=
  if decide (batch_size = 0) then op_raise InvalidArgumentError
  else do l <- ds; op_ret (chunks_from (length l) batch_size l).

Definition ds_prefetch {A} (n : nat) (ds : Dataset A) : Dataset A := ds.

Section Pipeline.

(** Decoding and augmenting an image are done by external collaborators
    ([common.fid_to_image], [tf.image], [tfa.image]); they produce the
    image component of an element and pass its FID and PID through.
    [augment] stands for the stages enabled by [--flip_augment],
    [--rotate_augment] and [--crop_augment]: it reads the random source
    for every element, and it can raise (a crop larger than the image). *)
Context {Image : Type}.
Variable fid_to_image : string → Image.
Variable augment : Image → Op Image.

(** The training dataset of [main], lines 242 to 290. *)
Definition train_dataset (pids fids : list string) (batch_p batch_k : nat)
    (epochs : nat) : Dataset (list (Image * string * string)) :=
  let unique_pids := np_unique pids in
  let dataset := from_tensor_slices unique_pids in
  let dataset := ds_shuffle (length unique_pids) dataset in
  do q <- py_floordiv (length unique_pids) batch_p;
  let dataset := ds_take (q * batch_p) dataset in
  let dataset := ds_repeat epochs dataset in
  let dataset :=
    ds_map (λ pid, sample_k_fids_for_pid pid fids pids batch_k) dataset in
  let dataset := ds_unbatch dataset in
  let dataset :=
    ds_map (λ e, op_ret (fid_to_image e.1, e.1, e.2)) dataset in
  let dataset :=
    ds_map (λ e, do im <- augment e.1.1; op_ret (im, e.1.2, e.2)) dataset in
  let batch_size := batch_p * batch_k in
  let dataset := ds_batch batch_size dataset in
  ds_prefetch 1 dataset.

End Pipeline.


(** ** Argument values, the namespace and the outside world *)

(** The values [argparse] produces for this parser and [json] stores:
    [None], booleans, integers, floats and strings.  A finite float is
    the rational it denotes; [float('inf')], [float('-inf')] and
    [float('nan')], which [type=float] arguments and [json] accept, are
    values of their own. *)
Inductive value : Type :=
  | VNone
  | VBool (b : bool)
  | VInt (z : Z)
  | VFloat (q : Q)
  | VInf (negative : bool)
  | VNaN
  | VStr (s : string).

Definition as_number (v : value) : option Q :=
  match v with
  | VBool b => Some (inject_Z (if b then 1 else 0))
  | VInt z => Some (inject_Z z)
  | VFloat q => Some q
  | _ => None
  end.

(** Python's [==] and [!=]: numbers compare by value across [bool], [int]
    and [float]; an infinity equals only itself, NaN equals nothing. *)
Definition py_eq (a b : value) : bool :=
  match a, b with
  | VNone, VNone => true
  | VStr s, VStr t => bool_decide (s = t)
  | VInf x, VInf y => bool_decide (x = y)
  | _, _ =>
      match as_number a, as_number b with
      | Some x, Some y => Qeq_bool x y
      | _, _ => false
      end
  end.

Definition py_ne (a b : value) : bool := negb (py_eq a b).

(** Truth value testing, as in [if not args.train_set]. *)
Definition py_truthy (v : value) : bool :=
  match v with
  | VNone => false
  | VBool b => b
  | VInt z => negb (Z.eqb z 0)
  | VFloat q => negb (Qeq_bool q 0)
  | VInf _ => true
  | VNaN => true
  | VStr s => negb (bool_decide (s = ""))
  end.

(** [args.__dict__]: the attributes in insertion order. *)
Definition namespace : Type := list (string * value).

Fixpoint ns_get (key : string) (ns : namespace) : option value :=
  match ns with
  | [] => None
  | (k, v) :: ns' => if decide (k = key) then Some v else ns_get key ns'
  end.

(** [args.__dict__[key] = v]: an existing key keeps its place. *)
Fixpoint ns_set (key : string) (v : value) (ns : namespace) : namespace :=
  match ns with
  | [] => [(key, v)]
  | (k, w) :: ns' =>
      if decide (k = key) then (k, v) :: ns' else (k, w) :: ns_set key v ns'
  end.

Inductive output : Type :=
  | MsgLoadingArgs
  | WarnLoadedValue (key : string) (resumed_value provided : value)
  | WarnNewArgument (key : string) (provided : value)
  | MsgNotEmpty
  | PrintHelp.

Inductive log_msg : Type :=
  | MsgParameters
  | MsgParameter (key : string) (v : value)
  | MsgNoTrainSet
  | MsgNoImageRoot
  | MsgRestoring
  | MsgStarting (start_step : nat)
  | MsgIter (step : nat)
  | MsgInterrupted.

Inductive log_record : Type :=
  | LogInfo (m : log_msg)
  | LogError (m : log_msg).

(** A file of the experiment directory: a JSON document holding an
    object, a JSON document holding another value, a file that is not
    JSON, or a file to which log records have been appended. *)
Inductive file : Type :=
  | JsonObject (o : gmap string value)
  | JsonOther
  | OtherFile (data : string)
  | Appended (base : file) (records : list log_record).

(** What is found at the path [args.experiment_root]. *)
Inductive path_state : Type :=
  | Absent
  | RegularFile
  | Directory (entries : gmap string file).

(** A save of [checkpoint_saver]: the number it is filed under and the
    value of the [global_step] variable it holds.  [checkpoints] lists the
    saves in the order they were made: with [max_to_keep=0] none is
    deleted, a save under a number used before replaces the files of the
    earlier one, and [tf.train.latest_checkpoint] names the last save.
    The saves and the records handed to the logging system are kept apart
    from the entries of the experiment directory. *)
Record checkpoint : Type := Checkpoint {
  ckpt_label : nat;
  ckpt_global_step : nat
}.

Record world : Type := World {
  fs : path_state;
  stdout : list output;
  log : list log_record;
  global_step : nat;
  checkpoints : list checkpoint
}.

Definition Prog (A : Type) : Type := ST world A.

Definition set_fs (p : path_state) (w : world) : world :=
  World p (stdout w) (log w) (global_step w) (checkpoints w).

Definition print (o : output) : Prog unit :=
  λ w, (Ok tt, World (fs w) (stdout w ++ [o]) (log w) (global_step w) (checkpoints w)).

(** A record handed to the logging system during the training session;
    what its handlers write below the experiment directory meanwhile is
    not followed there (see [log_to] for the prologue). *)
Definition log_emit (r : log_record) : Prog unit :=
  λ w, (Ok tt, World (fs w) (stdout w) (log w ++ [r]) (global_step w) (checkpoints w)).

Definition os_path_isfile (name : string) : Prog bool :=
  λ w, match fs w with
       | Directory entries => (Ok (bool_decide (is_Some (entries !! name))), w)
       | _ => (Ok false, w)
       end.

Definition os_path_exists : Prog bool :=
  λ w, match fs w with
       | Absent => (Ok false, w)
       | _ => (Ok true, w)
       end.

Definition os_listdir : Prog (list string) :=
  λ w, match fs w with
       | Directory entries => (Ok (map_to_list entries).*1, w)
       | RegularFile => (Raise NotADirectoryError, w)
       | Absent => (Raise (IOError "No such file or directory"), w)
       end.

Definition os_makedirs : Prog unit :=
  λ w, match fs w with
       | Absent => (Ok tt, set_fs (Directory ∅) w)
       | _ => (Raise (IOError "File exists"), w)
       end.

(** What [json.load] returns: a [dict], or a value of another type. *)
Inductive json_value : Type :=
  | JDict (o : gmap string value)
  | JNotDict.

(** Parsing the content of a file; [json.JSONDecodeError] is a
    [ValueError].  Log records after a document, or on their own, are not
    JSON. *)
Fixpoint json_parse (f : file) : result json_value :=
  match f with
  | JsonObject o => Ok (JDict o)
  | JsonOther => Ok JNotDict
  | OtherFile _ => Raise ValueError
  | Appended base [] => json_parse base
  | Appended _ (_ :: _) => Raise ValueError
  end.

(** [open(name, 'r')] followed by [json.load]. *)
Definition json_load (name : string) : Prog json_value :=
  λ w, match fs w with
       | Directory entries =>
           match entries !! name with
           | Some f => (json_parse f, w)
           | None => (Raise (IOError "No such file or directory"), w)
           end
       | _ => (Raise (IOError "No such file or directory"), w)
       end.

(** [d[key] = v] on what [json.load] returned: only a [dict] supports
    the assignment of line 189. *)
Definition setitem {S} (d : json_value) (key : string) (v : value)
    : ST S (gmap string value) :=
  match d with
  | JDict o => op_ret (<[key := v]> o)
  | JNotDict => op_raise TypeError
  end.

(** [open(name, 'w')] followed by [json.dump]. *)
Definition json_dump (name : string) (o : gmap string value) : Prog unit :=
  λ w, match fs w with
       | Directory entries =>
           (Ok tt, set_fs (Directory (<[name := JsonObject o]> entries)) w)
       | RegularFile => (Raise NotADirectoryError, w)
       | Absent => (Raise (IOError "No such file or directory"), w)
       end.

Definition getattr {S} (attr : string) (args : namespace) : ST S value :=
  match ns_get attr args with
  | Some v => op_ret v
  | None => op_raise (AttributeError attr)
  end.

(** [os.path.join] of two components, the second one relative. *)
Definition ends_with_sep (s : string) : bool :=
  bool_decide (String.substring (String.length s - 1) 1 s = "/").

Definition path_join (a b : string) : string :=
  if bool_decide (a = "") || ends_with_sep a then a +:+ b
  else a +:+ "/" +:+ b.

Definition os_path_join {S} (a : value) (b : string) : ST S string :=
  match a with
  | VStr s => op_ret (path_join s b)
  | _ => op_raise TypeError
  end.

(** ** Logging

    [common.get_logging_dict] is not part of the source at hand.  The
    handlers it describes are a parameter of the prologue: what they do
    to the experiment directory when [logging.config.dictConfig] creates
    them ([None] when that fails), and what they do to it with every
    record. *)
Record logging : Type := Logging {
  handlers_open : path_state → option path_state;
  handlers_emit : log_record → path_state → path_state
}.

(** [logging.config.dictConfig]: a handler that cannot be created makes
    it raise [ValueError]. *)
Definition dictConfig (handlers : logging) : Prog unit :=
  λ w, match handlers_open handlers (fs w) with
       | Some p => (Ok tt, set_fs p w)
       | None => (Raise ValueError, w)
       end.

(** [log.info] and [log.error] once the handlers are configured. *)
Definition log_to (handlers : logging) (r : log_record) : Prog unit :=
  λ w, (Ok tt,
        World (handlers_emit handlers r (fs w)) (stdout w) (log w ++ [r])
          (global_step w) (checkpoints w)).

(** Appending a record to a file, as a handler opened in append mode
    does. *)
Definition append_record (r : log_record) (f : file) : file :=
  match f with
  | Appended base records => Appended base (records ++ [r])
  | _ => Appended f [r]
  end.

(** An example of such handlers, for use where a concrete configuration
    is needed: a [logging.FileHandler] in append mode on
    [<log_file>.log], next to handlers that write to the terminal.  Seen
    from the directory at [root], the file is the entry [train.log] when
    [log_file] is [<root>/train]; any other log file lies elsewhere.
    Creating the handler opens the file, which creates it when missing;
    a record is appended to whatever the file holds. *)
Definition file_handler (root : string) (log_file : string) : logging :=
  if bool_decide (log_file = path_join root "train") then
    Logging
      (λ p, match p with
            | Directory entries =>
                match entries !! "train.log" with
                | Some _ => Some p
                | None => Some (Directory (<["train.log" := OtherFile ""]> entries))
                end
            | _ => None
            end)
      (λ r p, match p with
              | Directory entries =>
                  match entries !! "train.log" with
                  | Some f =>
                      Directory (<["train.log" := append_record r f]> entries)
                  | None => p
                  end
              | _ => p
              end)
  else Logging (λ p, Some p) (λ _ p, p).

(** ** The argument prologue of [main] *)

(** The loop of lines 194 to 204 over the items of [args.__dict__]. *)
Fixpoint resume_items (items : list (string * value))
    (args_resumed : gmap string value) (args : namespace) : Prog namespace :=
  match items with
  | [] => op_ret args
  | (key, v) :: items' =>
      match args_resumed !! key with
      | Some resumed_value =>
          if py_ne resumed_value v then
            do _ <- print (WarnLoadedValue key resumed_value v);
            resume_items items' args_resumed (ns_set key resumed_value args)
          else resume_items items' args_resumed args
      | None =>
          do _ <- print (WarnNewArgument key v);
          resume_items items' args_resumed args
      end
  end.

(** Lines 181 to 220: load the persisted arguments, or claim the
    experiment directory and persist the given ones.  The directory of
    the world is the one at [args.experiment_root]. *)
Definition main_args (args : namespace) : Prog namespace :=
  let args_file := "args.json" in
  do resume <- getattr "resume" args;
  if py_truthy resume then
    do isfile <- os_path_isfile args_file;
    if negb isfile then op_raise (IOError "`args.json` not found")
    else
      do _ <- print MsgLoadingArgs;
      do args_resumed <- json_load args_file;
      do args_resumed <- setitem args_resumed "resume" (VBool true);
      resume_items args args_resumed args
  else
    do exists_ <- os_path_exists;
    do _ <-
      (if exists_ then
         do names <- os_listdir;
         match names with
         | [] => op_ret tt
         | _ => do _ <- print MsgNotEmpty; op_raise (SystemExit 1)
         end
       else os_makedirs);
    do _ <- json_dump args_file (list_to_map args);
    op_ret args.

Definition key_le (a b : string * value) : Prop := string_le a.1 b.1.

#[global] Instance key_le_dec (a b : string * value) : Decision (key_le a b) :=
  decide (String.leb a.1 b.1 = true).

Section Prologue.

Variable get_logging_dict : string → logging.

(** Lines 222 to 239: configure logging for [<experiment_root>/train],
    log the parameters, then check the required ones. *)
Definition main_checks (args : namespace) : Prog unit :=
  do experiment_root <- getattr "experiment_root" args;
  do log_file <- os_path_join experiment_root "train";
  let handlers := get_logging_dict log_file in
  do _ <- dictConfig handlers;
  do _ <- log_to handlers (LogInfo MsgParameters);
  do _ <- op_mapM (λ kv, log_to handlers (LogInfo (MsgParameter kv.1 kv.2)))
            (merge_sort key_le args);
  do train_set <- getattr "train_set" args;
  do _ <-
    (if negb (py_truthy train_set) then
       do _ <- print PrintHelp;
       do _ <- log_to handlers (LogError MsgNoTrainSet);
       op_raise (SystemExit 1)
     else op_ret tt);
  do image_root <- getattr "image_root" args;
  if negb (py_truthy image_root) then
    do _ <- print PrintHelp;
    do _ <- log_to handlers (LogError MsgNoImageRoot);
    op_raise (SystemExit 1)
  else op_ret tt.

Definition main_prologue (args : namespace) : Prog namespace :=
  do args <- main_args args;
  do _ <- main_checks args;
  op_ret args.

End Prologue.

(** ** The training session of [main], lines 426 to 532

    The session is described by the variable [global_step], the records
    logged and the saves made.  What it writes below the experiment
    directory (the files of the saves, the summaries of the writers
    created in lines 446 and 447, the detailed logs) is not followed in
    [fs]. *)

(** What the run does not decide itself: whether [u.interrupted] is set
    when iteration [i] tests it, whether the fetch of [global_step] in
    iteration [i] sees the increment done by [train_op] in the same
    [sess.run] call, and whether the input pipeline hands its batches to
    the fetches of lines 460 to 462 in iteration [i] or raises
    ([tf.errors.OutOfRangeError] when the dataset has come to its end,
    which for the repeated dataset means that it is empty; the error of a
    loading or augmentation stage). *)
Record run_env : Type := RunEnv {
  interrupted_at : nat → bool;
  fetch_sees_update : nat → bool;
  next_batch_error : nat → option exn
}.

Definition checkpoint_save (label : nat) : Prog unit :=
  λ w, (Ok tt,
        World (fs w) (stdout w) (log w) (global_step w)
          (checkpoints w ++ [Checkpoint label (global_step w)])).

(** [checkpoint_saver.restore(sess, tf.train.latest_checkpoint(...))] *)
Definition checkpoint_restore_latest : Prog unit :=
  λ w, match last (checkpoints w) with
       | Some c =>
           (Ok tt,
            World (fs w) (stdout w) (log w) (ckpt_global_step c) (checkpoints w))
       | None => (Raise ValueError, w)
       end.

Definition global_variables_initializer : Prog unit :=
  λ w, (Ok tt, World (fs w) (stdout w) (log w) 0 (checkpoints w)).

Definition read_global_step : Prog nat := λ w, (Ok (global_step w), w).

(** [sess.run([images, pids])] followed by
    [sess.run([train_op, ..., global_step, ...])]: when the pipeline
    raises, nothing is trained; otherwise the variable is incremented,
    and the fetched value is the old or the new one. *)
Definition run_train_op (env : run_env) (i : nat) : Prog nat :=
  λ w, match next_batch_error env i with
       | Some e => (Raise e, w)
       | None =>
           let g := global_step w in
           (Ok (if fetch_sees_update env i then S g else g),
            World (fs w) (stdout w) (log w) (S g) (checkpoints w))
       end.

(** One pass through the body of the main loop, for a run without a test
    set; the boolean tells whether the body ended in [break].  The
    summaries and the detailed logs written between the training step and
    the progress record leave the variable, the records and the saves
    alone and are taken to succeed. *)
Definition loop_body (checkpoint_frequency : nat) (env : run_env) (i : nat)
    : Prog (nat * bool) :=
  do step <- run_train_op env i;
  do _ <- log_emit (LogInfo (MsgIter step));
  do _ <-
    (if bool_decide (0 < checkpoint_frequency) &&
        bool_decide (step mod checkpoint_frequency = 0)
     then checkpoint_save step
     else op_ret tt);
  if interrupted_at env i then
    do _ <- log_emit (LogInfo MsgInterrupted);
    op_ret (step, true)
  else op_ret (step, false).

(** [for i in range(...)]: the local variable [step] is bound by the first
    pass through the body. *)
Fixpoint main_loop (checkpoint_frequency : nat) (env : run_env)
    (range : list nat) (step : option nat) : Prog (option nat) :=
  match range with
  | [] => op_ret step
  | i :: range' =>
      do r <- loop_body checkpoint_frequency env i;
      if r.2 then op_ret (Some r.1)
      else main_loop checkpoint_frequency env range' (Some r.1)
  end.

(** [range(start, stop)] *)
Definition py_range (start stop : nat) : list nat := seq start (stop - start).

Definition main_training (resume : bool) (train_iterations checkpoint_frequency : nat)
    (env : run_env) : Prog unit :=
  do _ <-
    (if resume then
       do _ <- log_emit (LogInfo MsgRestoring);
       checkpoint_restore_latest
     else
       do _ <- global_variables_initializer;
       checkpoint_save 0);
  do start_step <- read_global_step;
  do _ <- log_emit (LogInfo (MsgStarting start_step));
  do step <-
    main_loop checkpoint_frequency env (py_range start_step train_iterations) None;
  match step with
  | Some step => checkpoint_save step
  | None => op_raise (UnboundLocalError "step")
  end.

(** [UnboundLocalError] is a subclass of [NameError]. *)
Definition is_NameError (e : exn) : bool :=
  match e with
  | UnboundLocalError _ => true
  | _ => false
  end.

(** ** The validation pipeline and the flip augmentation *)

Section TestPipeline.

Context {Image : Type}.
Variable fid_to_image : string → Image.

(** The validation dataset of [main], lines 299 to 338: the stages of the
    training dataset on the test set, without augmentation. *)
Definition test_dataset (test_pids test_fids : list string) (batch_p batch_k : nat)
    (epochs : nat) : Dataset (list (Image * string * string)) :=
  let test_unique_pids := np_unique test_pids in
  let test_dataset := from_tensor_slices test_unique_pids in
  let test_dataset := ds_shuffle (length test_unique_pids) test_dataset in
  do q <- py_floordiv (length test_unique_pids) batch_p;
  let test_dataset := ds_take (q * batch_p) test_dataset in
  let test_dataset := ds_repeat epochs test_dataset in
  let test_dataset :=
    ds_map (λ pid, sample_k_fids_for_pid pid test_fids test_pids batch_k)
      test_dataset in
  let test_dataset := ds_unbatch test_dataset in
  let test_dataset :=
    ds_map (λ e, op_ret (fid_to_image e.1, e.1, e.2)) test_dataset in
  let test_batch_size := batch_p * batch_k in
  let test_dataset := ds_batch test_batch_size test_dataset in
  ds_prefetch 1 test_dataset.

End TestPipeline.

(** [tf.random.uniform(shape=(), minval, maxval, dtype=tf.int32)]: an
    integer of the half-open range from [minval] to [maxval]. *)
Definition random_uniform_int (minval maxval : Z) : Op Z :=
  do r <- draw (Z.to_nat (maxval - minval));
  op_ret (minval + Z.of_nat r)%Z.

(** An image as its rows of pixels; [tf.image.rot90] composes a
    transposition with reversals of the two axes, by [k] modulo 4. *)
Fixpoint transpose {A} (m : list (list A)) : list (list A) :=
  match m with
  | [] => []
  | r :: m' =>
      match m' with
      | [] => (λ x, [x]) <$> r
      | _ => zip_with cons r (transpose m')
      end
  end.

Definition rot90 {A} (image : list (list A)) (k : Z) : list (list A) :=
  match (k mod 4)%Z with
  | 1%Z => transpose (reverse <$> image)
  | 2%Z => reverse (reverse <$> image)
  | 3%Z => reverse <$> transpose image
  | _ => image
  end.

(** Lines 273 to 276: the stage added by [--flip_augment]. *)
Definition flip_augment {A} (im : list (list A)) : Op (list (list A)) :=
  do u <- random_uniform_int 0 1;
  let random_angles := (u * 2)%Z in
  op_ret (rot90 im random_angles).

(** ** Specification vocabulary *)

(** [returns m P]: from every state, [m] yields a value without raising,
    and the value satisfies [P]. *)
Definition returns {S A} (m : ST S A) (P : A → Prop) : Prop :=
  ∀ s, ∃ a s', m s = (Ok a, s') ∧ P a.

(** [ensures m P]: whenever [m] yields a value, the value satisfies [P]. *)
Definition ensures {S A} (m : ST S A) (P : A → Prop) : Prop :=
  ∀ s a s', m s = (Ok a, s') → P a.

(** The directory after the handlers have taken [records], one after the
    other. *)
Definition logged (handlers : logging) (records : list log_record)
    (p : path_state) : path_state :=
  foldl (λ p r, handlers_emit handlers r p) p records.

(** The exact ceiling of [batch_k / count]. *)
Definition ceil_div (batch_k count : nat) : nat :=
  (batch_k + count - 1) / count.

(** How often the sample at position [i] of an identity's FIDs is drawn. *)
Definition occurrences (i : nat) (indices : list nat) : nat :=
  count_occ Nat.eq_dec indices i.

(** [drawn possible indices selected]: [selected] are the FIDs found at
    [indices]. *)
Definition drawn (possible_fids : list string) (indices : list nat)
    (selected : list string) : Prop :=
  Forall2 (λ i f, possible_fids !! i = Some f) indices selected.

(** A PK batch: [batch_p * batch_k] elements whose PIDs are
    [batch_p] distinct identities, each filling one block of [batch_k]
    consecutive places. *)
Definition pk_batch {Image} (batch_p batch_k : nat)
    (batch : list (Image * string * string)) : Prop :=
  length batch = batch_p * batch_k ∧
  ∃ identities : list string,
    length identities = batch_p ∧
    NoDup identities ∧
    batch.*2 = identities ≫= replicate batch_k ∧
    (∀ pid, pid ∈ batch.*2 ↔ pid ∈ identities) ∧
    (∀ pid, pid ∈ identities → count_occ String.string_dec batch.*2 pid = batch_k).

(** What one call of the K-selector for [pid] hands to the pipeline. *)
Definition shaped (batch_k : nat) (pid : string)
    (g : list string * list string) : Prop :=
  length g.1 = batch_k ∧ g.2 = replicate batch_k pid.

(** [sampled all_fids all_pids batch_k pid g]: [g] has the shape of a draw
    for [pid], and its FIDs are FIDs of [pid] in the dataset. *)
Definition sampled (all_fids all_pids : list string) (batch_k : nat)
    (pid : string) (g : list string * list string) : Prop :=
  shaped batch_k pid g ∧
  ∀ f, f ∈ g.1 → f ∈ possible_fids_of pid all_fids all_pids.

(** An element of the flat stream carries the FID and the PID of the pair
    it was loaded for. *)
Definition carries {Image} (e : string * string)
    (x : Image * string * string) : Prop :=
  x.1.2 = e.1 ∧ x.2 = e.2.

(** The batches of one run of the pipeline: the identities of the
    successive epochs, one draw of the K-selector for each, the flat
    stream of their elements, cut into batches. *)
Definition epoch_stream {Image} (fids pids : list string)
    (batch_p batch_k epochs : nat)
    (batches : list (list (Image * string * string))) : Prop :=
  let m := length (np_unique pids) / batch_p * batch_p in
  ∃ (eps : list (list string)) (groups : list (list string * list string))
    (flat : list (Image * string * string)),
    Forall (λ ep, length ep = m ∧ NoDup ep ∧ ∀ p, p ∈ ep → p ∈ pids) eps ∧
    length eps * m = epochs * m ∧
    Forall2 (sampled fids pids batch_k) (concat eps) groups ∧
    Forall2 carries (concat ((λ g, zip g.1 g.2) <$> groups)) flat ∧
    batches = chunks_from (length flat) (batch_p * batch_k) flat.

(** * Properties *)

(** ** Reasoning about computations *)

Lemma returns_ret {S A} (a : A) (P : A → Prop) :
  P a → returns (op_ret (S:=S) a) P.
Proof. intros HP s. by exists a, s. Qed.

Lemma returns_bind {S A B} (m : ST S A) (k : A → ST S B)
    (P : A → Prop) (Q : B → Prop) :
  returns m P → (∀ a, P a → returns (k a) Q) → returns (op_bind m k) Q.
Proof.
  intros Hm Hk s. destruct (Hm s) as (a & s' & Hms & HP).
  destruct (Hk a HP s') as (b & s'' & Hks & HQ).
  exists b, s''. unfold op_bind. by rewrite Hms.
Qed.

Lemma returns_mono {S A} (m : ST S A) (P Q : A → Prop) :
  returns m P → (∀ a, P a → Q a) → returns m Q.
Proof.
  intros Hm HPQ s. destruct (Hm s) as (a & s' & ? & ?). exists a, s'. auto.
Qed.

Lemma returns_mapM {S A B} (f : A → ST S B) (R : A → B → Prop) (l : list A) :
  (∀ x, x ∈ l → returns (f x) (R x)) → returns (op_mapM f l) (Forall2 R l).
Proof.
  induction l as [|x l IH]; intros Hf; simpl.
  - by apply returns_ret.
  - eapply returns_bind; [apply Hf; left|]. intros y Hy.
    eapply returns_bind; [apply IH; intros; apply Hf; by right|].
    intros ys Hys. apply returns_ret. by constructor.
Qed.

Lemma returns_ensures {S A} (m : ST S A) (P : A → Prop) :
  returns m P → ensures m P.
Proof.
  intros Hm s a s' Hrun. destruct (Hm s) as (a' & s'' & Hrun' & HP).
  rewrite Hrun in Hrun'. by injection Hrun' as -> _.
Qed.

Lemma returns_intro {S A} (m : ST S A) (P : A → Prop) :
  returns m (λ _, True) → ensures m P → returns m P.
Proof.
  intros Hm HP s. destruct (Hm s) as (a & s' & Hrun & _).
  exists a, s'. split; [done|]. by eapply HP.
Qed.

Lemma ensures_ret {S A} (a : A) (P : A → Prop) :
  P a → ensures (op_ret (S:=S) a) P.
Proof. intros HP s a' s' [= <- _]. done. Qed.

Lemma ensures_bind {S A B} (m : ST S A) (k : A → ST S B)
    (P : A → Prop) (Q : B → Prop) :
  ensures m P → (∀ a, P a → ensures (k a) Q) → ensures (op_bind m k) Q.
Proof.
  intros Hm Hk s b s'. unfold op_bind.
  destruct (m s) as [[a|e] s1] eqn:Hms; [|done].
  intros Hks. eapply Hk; [|exact Hks]. by eapply Hm.
Qed.

Lemma ensures_mono {S A} (m : ST S A) (P Q : A → Prop) :
  ensures m P → (∀ a, P a → Q a) → ensures m Q.
Proof. intros Hm HPQ s a s' Hrun. eapply HPQ, Hm, Hrun. Qed.

Lemma ensures_mapM {S A B} (f : A → ST S B) (R : A → B → Prop) (l : list A) :
  (∀ x, x ∈ l → ensures (f x) (R x)) → ensures (op_mapM f l) (Forall2 R l).
Proof.
  induction l as [|x l IH]; intros Hf; simpl.
  - by apply ensures_ret.
  - eapply ensures_bind; [apply Hf; left|]. intros y Hy.
    eapply ensures_bind; [apply IH; intros; apply Hf; by right|].
    intros ys Hys. apply ensures_ret. by constructor.
Qed.

Lemma draw_lt (bound : nat) :
  0 < bound → returns (draw bound) (λ i, i < bound).
Proof.
  intros Hb [|r s]; simpl; eexists _, _; split; try done.
  apply Nat.mod_upper_bound. lia.
Qed.

(** ** The shuffle is a permutation *)

Lemma shuffle_buffer_perm {A} (fuel : nat) (buffer input : list A) :
  fuel = length buffer + length input →
  (buffer = [] → input = []) →
  returns (shuffle_buffer fuel buffer input) (λ l, l ≡ₚ buffer ++ input).
Proof.
  revert buffer input. induction fuel as [|fuel IH]; intros buffer input Hlen Hne.
  - destruct buffer, input; simplify_eq/=. by apply returns_ret.
  - assert (0 < length buffer) as Hpos.
    { destruct buffer; [|simpl; lia]. rewrite Hne in Hlen by done. done. }
    simpl. eapply returns_bind; [by apply draw_lt|]. intros i Hi.
    destruct (lookup_lt_is_Some_2 buffer i Hi) as [x Hx]. rewrite Hx.
    destruct input as [|y input'].
    + eapply returns_bind.
      * apply IH; [|done]. rewrite length_delete by eauto. simpl in *. lia.
      * intros rest Hrest. apply returns_ret. simpl in Hrest.
        rewrite Hrest, !app_nil_r. symmetry. by apply delete_Permutation.
    + eapply returns_bind.
      * apply IH.
        -- rewrite length_insert. simpl in *. lia.
        -- intros Hnil. apply (f_equal length) in Hnil.
           rewrite length_insert in Hnil. simpl in Hnil. lia.
      * intros rest Hrest. apply returns_ret. simpl in Hrest.
        rewrite Hrest, insert_take_drop by done.
        rewrite <- (take_drop_middle buffer i x Hx) at 3.
        rewrite <- !app_assoc. simpl.
        rewrite <- (Permutation_middle (take i buffer) _ x). constructor.
        apply Permutation_app_head, Permutation_middle.
Qed.

(** Conversely, the source can produce every permutation. *)
Lemma random_shuffle_any_permutation {A} (l l' : list A) :
  l ≡ₚ l' → ∃ s, random_shuffle l s = (Ok l', []).
Proof.
  unfold random_shuffle. intros Hp. rewrite (Permutation_length Hp).
  revert l Hp. induction l' as [|x l' IH]; intros l Hp.
  - by exists [].
  - assert (x ∈ l) as Hx by (rewrite Hp; left).
    apply list_elem_of_lookup_1 in Hx as [i Hi].
    destruct (IH (delete i l)) as (s & Hs).
    { apply (Permutation_cons_inv (a := x)).
      by rewrite <- (delete_Permutation l i x Hi). }
    exists (i :: s). simpl. unfold op_bind. simpl.
    rewrite Nat.mod_small by (by eapply lookup_lt_Some).
    rewrite Hi. by rewrite Hs.
Qed.

Lemma random_shuffle_perm {A} (l : list A) :
  returns (random_shuffle l) (λ l', l' ≡ₚ l).
Proof.
  eapply returns_mono.
  - apply shuffle_buffer_perm; [simpl; lia | done].
  - intros l' Hl'. simpl in Hl'. by rewrite app_nil_r in Hl'.
Qed.

(** ** The float32 quotient *)

Section Float32.
Local Open Scope Z_scope.

Lemma rhe_bounds a b : 0 < b →
  2 * (round_half_even a b * b - a) <= b ∧ 2 * (a - round_half_even a b * b) <= b.
Proof.
  intros Hb. unfold round_half_even.
  pose proof (Z.div_mod a b ltac:(lia)) as Hdm.
  pose proof (Z.mod_pos_bound a b Hb) as Hr.
  destruct (2 * (a mod b) <? b) eqn:H1; [apply Z.ltb_lt in H1; nia|].
  apply Z.ltb_ge in H1.
  destruct (b <? 2 * (a mod b)) eqn:H2; [apply Z.ltb_lt in H2; nia|].
  apply Z.ltb_ge in H2.
  destruct (Z.even (a / b)); nia.
Qed.

Lemma rhe_le a b n : 0 < b → a <= n * b → round_half_even a b <= n.
Proof.
  intros Hb Ha. unfold round_half_even.
  pose proof (Z.div_mod a b ltac:(lia)) as Hdm.
  pose proof (Z.mod_pos_bound a b Hb) as Hr.
  assert (a / b <= n) by nia.
  assert (a / b = n → a mod b = 0) by nia.
  destruct (2 * (a mod b) <? b) eqn:H1; [lia|]. apply Z.ltb_ge in H1.
  assert (a / b < n) by nia.
  destruct (b <? 2 * (a mod b)); [lia|]. destruct (Z.even (a / b)); lia.
Qed.

Lemma rhe_ge a b n : 0 < b → n * b <= a → n <= round_half_even a b.
Proof.
  intros Hb Ha. unfold round_half_even.
  pose proof (Z.div_mod a b ltac:(lia)) as Hdm.
  pose proof (Z.mod_pos_bound a b Hb) as Hr.
  assert (n <= a / b) by nia.
  destruct (2 * (a mod b) <? b); [lia|].
  destruct (b <? 2 * (a mod b)); [lia|]. destruct (Z.even (a / b)); lia.
Qed.

Lemma rhe_gt a b n : 0 < b → b < 2 * (a - n * b) → n + 1 <= round_half_even a b.
Proof.
  intros Hb Ha. unfold round_half_even.
  pose proof (Z.div_mod a b ltac:(lia)) as Hdm.
  pose proof (Z.mod_pos_bound a b Hb) as Hr.
  assert (n <= a / b) by nia.
  destruct (2 * (a mod b) <? b) eqn:H1.
  - apply Z.ltb_lt in H1. nia.
  - apply Z.ltb_ge in H1. destruct (b <? 2 * (a mod b)) eqn:H2.
    + lia.
    + apply Z.ltb_ge in H2. assert (n < a / b) by nia.
      destruct (Z.even (a / b)); lia.
Qed.

Lemma rhe_mono a a' b : 0 < b → a <= a' → round_half_even a b <= round_half_even a' b.
Proof.
  intros Hb Ha. destruct (Z.eq_dec a a') as [->|Hne]; [lia|].
  pose proof (rhe_bounds a b Hb). pose proof (rhe_bounds a' b Hb). nia.
Qed.

Lemma f32_of_int_small n : n <= 2 ^ 24 → f32_of_int n = n.
Proof.
  intros Hn. unfold f32_of_int. destruct (n <? 2 ^ 24) eqn:Hlt; [done|].
  apply Z.ltb_ge in Hlt. assert (n = 2 ^ 24) as -> by lia. reflexivity.
Qed.

Lemma f32_of_int_lower n : 2 ^ 24 <= n → 2 ^ Z.log2 n <= f32_of_int n.
Proof.
  intros Hn. unfold f32_of_int. rewrite (proj2 (Z.ltb_ge _ _)) by done.
  assert (24 <= Z.log2 n) as Hl by (apply Z.log2_le_pow2; lia).
  pose proof (Z.log2_spec n ltac:(lia)) as [Hlo Hhi].
  set (u := 2 ^ (Z.log2 n - 23)).
  assert (0 < u) as Hu by (apply Z.pow_pos_nonneg; lia).
  assert (2 ^ Z.log2 n = 2 ^ 23 * u) as Hs.
  { unfold u. rewrite <- Z.pow_add_r by lia. f_equal; lia. }
  pose proof (rhe_ge n u (2 ^ 23) Hu ltac:(lia)). nia.
Qed.

Lemma f32_of_int_upper n : 2 ^ 24 <= n → f32_of_int n <= 2 ^ (Z.log2 n + 1).
Proof.
  intros Hn. unfold f32_of_int. rewrite (proj2 (Z.ltb_ge _ _)) by done.
  assert (24 <= Z.log2 n) as Hl by (apply Z.log2_le_pow2; lia).
  pose proof (Z.log2_spec n ltac:(lia)) as [Hlo Hhi].
  set (u := 2 ^ (Z.log2 n - 23)).
  assert (0 < u) as Hu by (apply Z.pow_pos_nonneg; lia).
  assert (2 ^ (Z.log2 n + 1) = 2 ^ 24 * u) as Hs.
  { unfold u. rewrite <- Z.pow_add_r by lia. f_equal; lia. }
  replace (Z.succ (Z.log2 n)) with (Z.log2 n + 1) in Hhi by lia.
  pose proof (rhe_le n u (2 ^ 24) Hu ltac:(lia)). nia.
Qed.

Lemma f32_of_int_mono a b : a <= b → f32_of_int a <= f32_of_int b.
Proof.
  intros Hab. destruct (Z.lt_ge_cases b (2 ^ 24)) as [Hb|Hb].
  { rewrite !f32_of_int_small by lia. done. }
  destruct (Z.lt_ge_cases a (2 ^ 24)) as [Ha|Ha].
  { rewrite (f32_of_int_small a) by lia.
    pose proof (f32_of_int_lower b Hb).
    assert (2 ^ 24 <= 2 ^ Z.log2 b).
    { apply Z.pow_le_mono_r; [lia|]. apply Z.log2_le_pow2; lia. }
    lia. }
  pose proof (Z.log2_le_mono a b Hab) as Hl.
  destruct (Z.eq_dec (Z.log2 a) (Z.log2 b)) as [He|Hne].
  - unfold f32_of_int. rewrite !(proj2 (Z.ltb_ge _ _)) by done. rewrite He.
    set (u := 2 ^ (Z.log2 b - 23)).
    assert (24 <= Z.log2 b) by (apply Z.log2_le_pow2; lia).
    assert (0 < u) as Hu by (apply Z.pow_pos_nonneg; lia).
    pose proof (rhe_mono a b u Hu Hab). nia.
  - pose proof (f32_of_int_upper a Ha). pose proof (f32_of_int_lower b Hb).
    assert (2 ^ (Z.log2 a + 1) <= 2 ^ Z.log2 b).
    { apply Z.pow_le_mono_r; lia. }
    lia.
Qed.

Lemma f32_of_int_pos n : 1 <= n → 1 <= f32_of_int n.
Proof. intros Hn. apply (f32_of_int_mono 1 n Hn). Qed.

(** A quotient of at most 1 has ceiling 1. *)
Lemma f32_div_ceil_le a b : 1 <= a → a <= b → f32_div_ceil a b = 1.
Proof.
  intros Ha Hab. unfold f32_div_ceil.
  assert (quotient_exponent a b <= 0) as He.
  { unfold quotient_exponent. destruct (b <=? a) eqn:Hba.
    - apply Z.leb_le in Hba. assert (a = b) as -> by lia.
      rewrite Z.div_same by lia. by compute.
    - pose proof (Z.log2_up_nonneg ((b + a - 1) / a)). lia. }
  assert (b <= a * 2 ^ (- quotient_exponent a b)) as Hcov.
  { unfold quotient_exponent. destruct (b <=? a) eqn:Hba.
    - apply Z.leb_le in Hba. assert (a = b) as -> by lia.
      rewrite Z.div_same by lia. simpl. lia.
    - apply Z.leb_gt in Hba. rewrite Z.opp_involutive.
      set (c := (b + a - 1) / a).
      assert (b <= a * c) as Hc.
      { unfold c. pose proof (Z.div_mod (b + a - 1) a ltac:(lia)).
        pose proof (Z.mod_pos_bound (b + a - 1) a ltac:(lia)). nia. }
      assert (1 < c) as Hc1 by nia.
      pose proof (Z.log2_up_spec c Hc1) as [_ Hup]. nia. }
  rewrite (proj2 (Z.leb_le _ _)) by lia.
  set (e := quotient_exponent a b) in *.
  set (sc := 2 ^ (23 - e)).
  assert (sc = 2 ^ 23 * 2 ^ (- e)) as Hsc.
  { unfold sc. rewrite <- Z.pow_add_r by lia. f_equal; lia. }
  assert (0 < 2 ^ (- e)) by (apply Z.pow_pos_nonneg; lia).
  assert (0 < sc) as Hpos by lia.
  pose proof (rhe_le (a * sc) b sc ltac:(lia) ltac:(nia)) as Hle.
  pose proof (rhe_ge (a * sc) b 1 ltac:(lia) ltac:(nia)) as Hge.
  set (m := round_half_even (a * sc) b) in *.
  symmetry. apply Z.div_unique with (r := m - 1); lia.
Qed.

(** On operands a float32 holds exactly, the rounded quotient has the
    ceiling of the exact one. *)
Lemma f32_div_ceil_exact a b :
  1 <= b → b <= a → a <= 2 ^ 24 → f32_div_ceil a b = (a + b - 1) / b.
Proof.
  intros Hb Hba Ha. unfold f32_div_ceil, quotient_exponent.
  rewrite (proj2 (Z.leb_le b a)) by done.
  pose proof (Z.div_mod a b ltac:(lia)) as Hdm.
  pose proof (Z.mod_pos_bound a b ltac:(lia)) as Hr.
  set (q := a / b) in *. set (r := a mod b) in *.
  assert (1 <= q) as Hq by nia.
  pose proof (Z.log2_spec q ltac:(lia)) as [Hlo Hhi].
  pose proof (Z.log2_nonneg q) as He0.
  set (e := Z.log2 q) in *.
  replace (Z.succ e) with (e + 1) in Hhi by lia.
  destruct (e <=? 23) eqn:He.
  - apply Z.leb_le in He.
    set (sc := 2 ^ (23 - e)).
    assert (0 < sc) as Hsc by (apply Z.pow_pos_nonneg; lia).
    assert (2 ^ e * sc = 2 ^ 23) as Hes.
    { unfold sc. rewrite <- Z.pow_add_r by lia. f_equal; lia. }
    assert (0 < 2 ^ e) by (apply Z.pow_pos_nonneg; lia).
    destruct (Z.eq_dec r 0) as [Hr0|Hr0].
    + assert (round_half_even (a * sc) b = q * sc) as ->.
      { apply Z.le_antisymm; [apply rhe_le | apply rhe_ge]; nia. }
      transitivity q.
      * symmetry. apply Z.div_unique with (r := sc - 1); nia.
      * apply Z.div_unique with (r := b - 1); nia.
    + assert (b * 2 ^ e < 2 ^ 24) as Hb2 by nia.
      assert (b < 2 * sc) as Hb3.
      { change (2 ^ 24) with (2 * 2 ^ 23) in Hb2. nia. }
      pose proof (rhe_le (a * sc) b ((q + 1) * sc) ltac:(lia) ltac:(nia)) as Hle.
      pose proof (rhe_gt (a * sc) b (q * sc) ltac:(lia) ltac:(nia)) as Hge.
      set (m := round_half_even (a * sc) b) in *.
      transitivity (q + 1).
      * symmetry. apply Z.div_unique with (r := m + sc - 1 - (q + 1) * sc); nia.
      * apply Z.div_unique with (r := r - 1); nia.
  - apply Z.leb_gt in He.
    assert (2 ^ 24 <= 2 ^ e) by (apply Z.pow_le_mono_r; lia).
    assert (a = 2 ^ 24 ∧ b = 1) as [-> ->] by nia.
    assert (e = 24) as ->.
    { unfold e, q. reflexivity. }
    reflexivity.
Qed.

End Float32.

(** ** The padded index pool *)

Lemma ceil_div_covers (batch_k count : nat) :
  0 < count → batch_k ≤ ceil_div batch_k count * count.
Proof.
  intros Hc. unfold ceil_div.
  pose proof (Nat.div_mod_eq (batch_k + count - 1) count) as Hdm.
  pose proof (Nat.mod_upper_bound (batch_k + count - 1) count) as Hlt.
  nia.
Qed.

Lemma ceil_div_tight (batch_k count : nat) :
  0 < count → ceil_div batch_k count * count < batch_k + count.
Proof.
  intros Hc. unfold ceil_div.
  pose proof (Nat.div_mod_eq (batch_k + count - 1) count) as Hdm.
  nia.
Qed.

Lemma ceil_div_le_1 (batch_k count : nat) :
  batch_k ≤ count → ceil_div batch_k count ≤ 1.
Proof.
  intros Hk. destruct (decide (count = 0)) as [->|Hc].
  - unfold ceil_div. rewrite Nat.div_0_r. lia.
  - pose proof (ceil_div_tight batch_k count). nia.
Qed.

(** The float32 quotient against the exact ceiling. *)

Lemma f32_ceil_quotient_within (batch_k count : nat) :
  0 < batch_k → batch_k ≤ count → f32_ceil_quotient batch_k count = 1.
Proof.
  intros Hk Hle. unfold f32_ceil_quotient.
  rewrite !decide_False by lia.
  rewrite f32_div_ceil_le; [done| |].
  - apply f32_of_int_pos. lia.
  - apply f32_of_int_mono. lia.
Qed.

Lemma f32_ceil_quotient_le_1 (batch_k count : nat) :
  batch_k ≤ count → f32_ceil_quotient batch_k count ≤ 1.
Proof.
  intros Hle. destruct (decide (batch_k = 0)) as [->|Hk].
  - unfold f32_ceil_quotient. destruct (decide (count = 0)); [lia|].
    rewrite decide_True by done. lia.
  - rewrite f32_ceil_quotient_within by lia. done.
Qed.

Lemma f32_ceil_quotient_exact (batch_k count : nat) :
  (Z.of_nat batch_k ≤ 2 ^ 24)%Z → 0 < count →
  f32_ceil_quotient batch_k count = ceil_div batch_k count.
Proof.
  intros Hk Hc.
  pose proof (ceil_div_covers batch_k count Hc) as Hcov.
  pose proof (ceil_div_tight batch_k count Hc) as Htight.
  destruct (decide (batch_k = 0)) as [->|Hk0].
  { unfold f32_ceil_quotient. rewrite decide_False by lia.
    rewrite decide_True by done. nia. }
  destruct (decide (batch_k ≤ count)) as [Hle|Hgt].
  { rewrite f32_ceil_quotient_within by lia. nia. }
  unfold f32_ceil_quotient. rewrite !decide_False by lia.
  rewrite !f32_of_int_small by lia.
  rewrite f32_div_ceil_exact by lia.
  unfold ceil_div.
  replace (Z.of_nat batch_k + Z.of_nat count - 1)%Z
    with (Z.of_nat (batch_k + count - 1)) by lia.
  by rewrite <- Nat2Z.inj_div, Nat2Z.id.
Qed.

(** Beyond 2^24 the conversion of [batch_k] rounds: the quotient for
    2^24 + 1 and a single image is 2^24. *)
Lemma f32_ceil_quotient_rounds :
  f32_ceil_quotient (Z.to_nat (2 ^ 24 + 1)) 1 = Z.to_nat (2 ^ 24).
Proof.
  unfold f32_ceil_quotient. rewrite !decide_False by lia.
  rewrite Z2Nat.id by lia. reflexivity.
Qed.

Lemma full_range_lt (padded_count count i : nat) :
  0 < count → i ∈ full_range padded_count count → i < count.
Proof.
  intros Hc (j & -> & _)%list_elem_of_fmap. apply Nat.mod_upper_bound. lia.
Qed.

Lemma full_range_succ (c count : nat) :
  full_range (S c * count) count = seq 0 count ++ full_range (c * count) count.
Proof.
  unfold full_range. simpl. rewrite seq_app, fmap_app. f_equal.
  - apply list_eq. intros j. rewrite <- (list_fmap_id (seq 0 count)) at 2.
    rewrite !list_lookup_fmap.
    destruct (seq 0 count !! j) as [x|] eqn:Hx; [|done]. simpl. f_equal.
    apply lookup_seq in Hx. apply Nat.mod_small. lia.
  - rewrite (Nat.add_comm 0 count), <- (fmap_add_seq count 0), <- list_fmap_compose.
    apply list_fmap_ext. intros _ x _. simpl.
    destruct (decide (count = 0)) as [->|Hc]; [done|].
    rewrite Nat.Div0.add_mod, Nat.Div0.mod_same, Nat.add_0_l.
    by rewrite Nat.Div0.mod_mod.
Qed.

Lemma occurrences_seq (count i : nat) :
  i < count → occurrences i (seq 0 count) = 1.
Proof.
  intros Hi. unfold occurrences.
  assert (List.NoDup (seq 0 count)) as Hnd by apply List.seq_NoDup.
  apply (NoDup_count_occ' Nat.eq_dec) with (x := i) in Hnd; [done|].
  apply in_seq. lia.
Qed.

(** Every sample of the identity is in the pool equally often. *)
Lemma occurrences_full_range (c count i : nat) :
  i < count → occurrences i (full_range (c * count) count) = c.
Proof.
  intros Hi. induction c as [|c IH]; [done|].
  rewrite full_range_succ. unfold occurrences in *.
  rewrite count_occ_app, IH. fold (occurrences i (seq 0 count)).
  by rewrite occurrences_seq.
Qed.

Lemma occurrences_take_le (i n : nat) (l : list nat) :
  occurrences i (take n l) ≤ occurrences i l.
Proof.
  unfold occurrences. rewrite <- (take_drop n l) at 2.
  rewrite count_occ_app. lia.
Qed.

Lemma occurrences_take_ge (i n : nat) (l : list nat) :
  occurrences i l - (length l - n) ≤ occurrences i (take n l).
Proof.
  unfold occurrences. rewrite <- (take_drop n l) at 1.
  rewrite count_occ_app.
  pose proof (count_occ_bound Nat.eq_dec i (drop n l)) as Hb.
  rewrite length_drop in Hb. lia.
Qed.

Lemma occurrences_perm (i : nat) (l l' : list nat) :
  l ≡ₚ l' → occurrences i l = occurrences i l'.
Proof. intros Hp. unfold occurrences. by apply Permutation_count_occ. Qed.

Lemma occurrences_NoDup (l : list nat) :
  (∀ i, occurrences i l ≤ 1) → NoDup l.
Proof.
  intros Hocc. apply NoDup_ListNoDup. by apply (NoDup_count_occ Nat.eq_dec).
Qed.

(** ** Masking and gathering *)

Lemma mask_select_elem {A} (tensor : list A) (mask : list bool) (x : A) :
  x ∈ mask_select tensor mask →
  ∃ j, tensor !! j = Some x ∧ mask !! j = Some true.
Proof.
  revert mask. induction tensor as [|y t IH]; intros [|b m]; simpl;
    try (intros H; by apply elem_of_nil in H).
  destruct b.
  - intros [->|Hin]%elem_of_cons; [by exists 0|].
    destruct (IH _ Hin) as (j & ? & ?). by exists (S j).
  - intros Hin. destruct (IH _ Hin) as (j & ? & ?). by exists (S j).
Qed.

Lemma possible_fids_of_elem (pid : string) (all_fids all_pids : list string)
    (f : string) :
  f ∈ possible_fids_of pid all_fids all_pids →
  ∃ j, all_fids !! j = Some f ∧ all_pids !! j = Some pid.
Proof.
  intros (j & Hf & Hm)%mask_select_elem. exists j. split; [done|].
  apply list_lookup_fmap_Some in Hm as (p & Hp & ?).
  symmetry in Hp. apply bool_decide_eq_true in Hp. by subst.
Qed.

Lemma gather_returns {A} (params : list A) (indices : list nat) :
  Forall (λ i, i < length params) indices →
  returns (gather params indices)
    (Forall2 (λ i x, params !! i = Some x) indices).
Proof.
  induction 1 as [|i indices Hi _ IH]; simpl.
  - by apply returns_ret.
  - destruct (lookup_lt_is_Some_2 params i Hi) as [x Hx]. rewrite Hx.
    eapply returns_bind; [apply IH|]. intros xs Hxs.
    apply returns_ret. by constructor.
Qed.

(** ** One call of the K-selector

    The call succeeds; its first component holds the FIDs found at the
    first K entries of a permutation of the padded pool, its second K
    copies of the PID. *)
Lemma sample_k_spec (pid : string) (all_fids all_pids : list string) (batch_k : nat) :
  length all_fids = length all_pids →
  let possible_fids := possible_fids_of pid all_fids all_pids in
  let count := length possible_fids in
  returns (sample_k_fids_for_pid pid all_fids all_pids batch_k)
    (λ r, ∃ shuffled,
        shuffled ≡ₚ full_range (f32_ceil_quotient batch_k count * count) count ∧
        drawn possible_fids (take batch_k shuffled) r.1 ∧
        r.2 = replicate batch_k pid).
Proof.
  intros Hlen possible_fids count. unfold sample_k_fids_for_pid, boolean_mask.
  rewrite decide_True by (rewrite length_fmap; exact Hlen).
  apply (returns_bind _ _ (λ a, a = possible_fids)); [by apply returns_ret|].
  intros ? ->. fold count.
  eapply returns_bind; [apply random_shuffle_perm|]. intros shuffled Hperm.
  eapply returns_bind.
  - apply gather_returns. apply Forall_forall. intros i Hi.
    apply elem_of_take in Hi as (j & Hj & _).
    apply list_elem_of_lookup_2 in Hj. rewrite Hperm in Hj.
    destruct (decide (count = 0)) as [Hc|Hc].
    + rewrite Hc, Nat.mul_0_r in Hj. by apply elem_of_nil in Hj.
    + apply full_range_lt in Hj; [done | lia].
  - intros sel Hsel. apply returns_ret. by exists shuffled.
Qed.

(** For [batch_k] up to 2^24, which a float32 holds exactly, the pool has
    the exact ceiling of [batch_k / count] copies of every position. *)
Lemma sample_k_spec_exact (pid : string) (all_fids all_pids : list string)
    (batch_k : nat) :
  length all_fids = length all_pids →
  (Z.of_nat batch_k ≤ 2 ^ 24)%Z →
  let possible_fids := possible_fids_of pid all_fids all_pids in
  let count := length possible_fids in
  returns (sample_k_fids_for_pid pid all_fids all_pids batch_k)
    (λ r, ∃ shuffled,
        shuffled ≡ₚ full_range (ceil_div batch_k count * count) count ∧
        drawn possible_fids (take batch_k shuffled) r.1 ∧
        r.2 = replicate batch_k pid).
Proof.
  intros Hlen Hk possible_fids count.
  eapply returns_mono; [by apply sample_k_spec|].
  intros r (shuffled & Hperm & Hd & Hlbl). exists shuffled.
  split; [|done]. fold possible_fids count in Hperm.
  destruct (decide (count = 0)) as [Hc|Hc].
  - rewrite Hc, Nat.mul_0_r in *. done.
  - by rewrite <- f32_ceil_quotient_exact by lia.
Qed.

Lemma drawn_length (possible_fids : list string) indices selected :
  drawn possible_fids indices selected → length selected = length indices.
Proof. intros Hd. symmetry. by eapply Forall2_length. Qed.

Lemma drawn_elem (possible_fids : list string) indices selected f :
  drawn possible_fids indices selected → f ∈ selected →
  ∃ i, i ∈ indices ∧ possible_fids !! i = Some f.
Proof.
  induction 1 as [|i f' indices selected Hi _ IH]; intros Hin.
  - by apply elem_of_nil in Hin.
  - apply elem_of_cons in Hin as [->|Hin].
    + exists i. split; [left|done].
    + destruct (IH Hin) as (j & ? & ?). exists j. split; [by right|done].
Qed.

Lemma drawn_NoDup (possible_fids : list string) indices selected :
  drawn possible_fids indices selected →
  NoDup possible_fids → NoDup indices → NoDup selected.
Proof.
  intros Hd Hp. induction Hd as [|i f indices selected Hi Hd IH]; intros Hnd.
  - constructor.
  - apply NoDup_cons in Hnd as [Hni Hnd]. constructor; [|by apply IH].
    intros Hin. destruct (drawn_elem _ _ _ _ Hd Hin) as (j & Hj & Hjf).
    assert (i = j) by exact (NoDup_lookup _ _ _ _ Hp Hi Hjf). by subst.
Qed.

(** Within the exact range of float32 the call returns K FIDs of the
    requested identity, also when K exceeds the number of its images. *)
Lemma sample_k_returns_k (pid : string) (all_fids all_pids : list string)
    (batch_k : nat) (s : rng) :
  length all_fids = length all_pids →
  1 ≤ length (possible_fids_of pid all_fids all_pids) →
  (Z.of_nat batch_k ≤ 2 ^ 24)%Z →
  ∃ selected s',
    sample_k_fids_for_pid pid all_fids all_pids batch_k s
      = (Ok (selected, replicate batch_k pid), s') ∧
    length selected = batch_k ∧
    ∀ f, f ∈ selected →
      ∃ j, all_fids !! j = Some f ∧ all_pids !! j = Some pid.
Proof.
  intros Hlen Hcount Hk.
  destruct (sample_k_spec_exact pid all_fids all_pids batch_k Hlen Hk s)
    as ([sel lbl] & s' & Hrun & shuffled & Hperm & Hd & Hlbl).
  simpl in *. subst lbl. exists sel, s'. split; [done|]. split.
  - rewrite (drawn_length _ _ _ Hd), length_take.
    rewrite Hperm. unfold full_range. rewrite length_fmap, length_seq.
    pose proof (ceil_div_covers batch_k _ Hcount). lia.
  - intros f Hf. destruct (drawn_elem _ _ _ _ Hd Hf) as (i & _ & Hi).
    apply possible_fids_of_elem. by eapply list_elem_of_lookup_2.
Qed.

(** C4 fails in the code for K beyond the exact range of float32: for an
    identity with one image and K = 2^24 + 1, the conversion of K to
    float32 rounds to 2^24, the padded pool has 2^24 entries, and the
    call returns 2^24 FIDs next to K = 2^24 + 1 copies of the PID; the
    [unbatch] stage of the pipeline rejects such an element. *)
Theorem sample_k_float32_shortfall (s : rng) :
  let batch_k := Z.to_nat (2 ^ 24 + 1) in
  ∃ selected s',
    sample_k_fids_for_pid "A" ["a1"] ["A"] batch_k s
      = (Ok (selected, replicate batch_k "A"), s') ∧
    length selected = Z.to_nat (2 ^ 24) ∧
    length selected < batch_k ∧
    unbatch_element (selected, replicate batch_k "A") s'
      = (Raise InvalidArgumentError, s').
Proof.
  intros batch_k.
  destruct (sample_k_spec "A" ["a1"] ["A"] batch_k eq_refl s)
    as ([sel lbl] & s' & Hrun & shuffled & Hperm & Hd & Hlbl).
  cbn [fst snd] in Hd, Hlbl. subst lbl.
  change (length (possible_fids_of "A" ["a1"] ["A"])) with 1 in Hperm.
  unfold batch_k in Hperm at 1. rewrite f32_ceil_quotient_rounds in Hperm.
  assert (length sel = Z.to_nat (2 ^ 24)) as Hsel.
  { rewrite (drawn_length _ _ _ Hd), length_take, Hperm.
    unfold full_range. rewrite length_fmap, length_seq. unfold batch_k. lia. }
  exists sel, s'. split; [done|]. split; [done|].
  split; [unfold batch_k; lia|].
  unfold unbatch_element. cbn [fst snd].
  rewrite decide_False; [done|].
  rewrite length_replicate, Hsel. unfold batch_k. lia.
Qed.

(** C3: for an identity with at least K samples, the K positions drawn by
    one call of the K-selector are pairwise distinct; when the identity's
    FIDs are distinct, so are the K FIDs returned. *)
Theorem sample_k_no_duplicates (pid : string) (all_fids all_pids : list string)
    (batch_k : nat) (s : rng) :
  length all_fids = length all_pids →
  batch_k ≤ length (possible_fids_of pid all_fids all_pids) →
  ∃ indices selected s',
    sample_k_fids_for_pid pid all_fids all_pids batch_k s
      = (Ok (selected, replicate batch_k pid), s') ∧
    drawn (possible_fids_of pid all_fids all_pids) indices selected ∧
    NoDup indices ∧
    (NoDup (possible_fids_of pid all_fids all_pids) → NoDup selected).
Proof.
  intros Hlen Hk.
  destruct (sample_k_spec pid all_fids all_pids batch_k Hlen s)
    as ([sel lbl] & s' & Hrun & shuffled & Hperm & Hd & Hlbl).
  simpl in *. subst lbl. exists (take batch_k shuffled), sel, s'.
  assert (NoDup (take batch_k shuffled)) as Hnd.
  { apply occurrences_NoDup. intros i.
    etrans; [apply occurrences_take_le|].
    rewrite (occurrences_perm _ _ _ Hperm).
    set (count := length (possible_fids_of pid all_fids all_pids)) in *.
    destruct (decide (i < count)) as [Hi|Hi].
    - rewrite occurrences_full_range by done. by apply f32_ceil_quotient_le_1.
    - unfold occurrences. rewrite (proj1 (count_occ_not_In _ _ _)); [lia|].
      intros Hin. apply list_elem_of_In in Hin.
      destruct (decide (count = 0)) as [Hc|Hc].
      + rewrite Hc, Nat.mul_0_r in Hin. by apply elem_of_nil in Hin.
      + apply full_range_lt in Hin; lia. }
  repeat split; try done. intros Hp. by eapply drawn_NoDup.
Qed.

Lemma sample_k_no_duplicates_witness :
  ∃ indices selected s',
    sample_k_fids_for_pid "A" ["a1"; "c1"; "a2"; "a3"] ["A"; "C"; "A"; "A"] 2
        [4; 0; 9]
      = (Ok (selected, replicate 2 "A"), s') ∧
    drawn (possible_fids_of "A" ["a1"; "c1"; "a2"; "a3"] ["A"; "C"; "A"; "A"])
      indices selected ∧
    NoDup indices ∧
    (NoDup (possible_fids_of "A" ["a1"; "c1"; "a2"; "a3"] ["A"; "C"; "A"; "A"]) →
     NoDup selected).
Proof.
  apply (sample_k_no_duplicates "A" ["a1"; "c1"; "a2"; "a3"]
           ["A"; "C"; "A"; "A"] 2 [4; 0; 9]).
  - reflexivity.
  - vm_compute. lia.
Defined.

(** Two copies of a position can be put behind everything else. *)
Lemma pool_two_last (i : nat) (pool : list nat) :
  2 ≤ occurrences i pool →
  ∃ rest, pool ≡ₚ rest ++ [i; i] ∧ occurrences i rest = occurrences i pool - 2.
Proof.
  intros Hocc.
  assert (i ∈ pool) as Hin.
  { apply list_elem_of_In, (count_occ_In Nat.eq_dec). unfold occurrences in Hocc. lia. }
  apply elem_of_Permutation in Hin as [k1 Hk1].
  assert (occurrences i k1 = occurrences i pool - 1) as Ho1.
  { rewrite (occurrences_perm _ _ _ Hk1). unfold occurrences. simpl.
    destruct (Nat.eq_dec i i); [lia|done]. }
  assert (i ∈ k1) as Hin1.
  { apply list_elem_of_In, (count_occ_In Nat.eq_dec). unfold occurrences in *. lia. }
  apply elem_of_Permutation in Hin1 as [rest Hrest].
  exists rest. split.
  - rewrite Hk1, Hrest. rewrite (Permutation_app_comm rest [i; i]). done.
  - rewrite (occurrences_perm _ _ _ Hrest) in Ho1. unfold occurrences in *.
    simpl in Ho1. destruct (Nat.eq_dec i i); [lia|done].
Qed.

(** C2, as the code has it: for an identity with fewer than K samples and
    K up to 2^24, every sample is drawn at most ceil(K/count) times, and
    at least ceil(K/count) minus the number of pool entries cut off by the
    slice; that lower bound is floor(K/count) when count divides K or
    leaves the remainder count - 1.  For every other remainder some
    outcome of the shuffle leaves a sample with fewer than floor(K/count)
    draws. *)
Theorem sample_k_oversampling_bounds (pid : string) (all_fids all_pids : list string)
    (batch_k : nat) (s : rng) :
  length all_fids = length all_pids →
  let count := length (possible_fids_of pid all_fids all_pids) in
  count < batch_k →
  (Z.of_nat batch_k ≤ 2 ^ 24)%Z →
  (∃ indices selected s',
     sample_k_fids_for_pid pid all_fids all_pids batch_k s
       = (Ok (selected, replicate batch_k pid), s') ∧
     drawn (possible_fids_of pid all_fids all_pids) indices selected ∧
     ∀ i, i < count →
       occurrences i indices ≤ ceil_div batch_k count ∧
       ceil_div batch_k count - (ceil_div batch_k count * count - batch_k)
         ≤ occurrences i indices ∧
       (batch_k mod count = 0 ∨ S (batch_k mod count) = count →
        batch_k / count ≤ occurrences i indices)) ∧
  (0 < batch_k mod count → S (batch_k mod count) < count →
   ∃ s0 indices selected s',
     sample_k_fids_for_pid pid all_fids all_pids batch_k s0
       = (Ok (selected, replicate batch_k pid), s') ∧
     drawn (possible_fids_of pid all_fids all_pids) indices selected ∧
     ∃ i, i < count ∧ occurrences i indices < batch_k / count).
Proof.
  intros Hlen count Hk Hbound. split.
  - destruct (sample_k_spec_exact pid all_fids all_pids batch_k Hlen Hbound s)
      as ([sel lbl] & s' & Hrun & shuffled & Hperm & Hd & Hlbl).
    simpl in *. subst lbl. fold count in Hperm.
    exists (take batch_k shuffled), sel, s'. do 2 (split; [done|]).
    intros i Hi.
    pose proof (occurrences_take_le i batch_k shuffled) as Hle.
    pose proof (occurrences_take_ge i batch_k shuffled) as Hge.
    rewrite (occurrences_perm _ _ _ Hperm), occurrences_full_range in Hle, Hge
      by done.
    assert (length shuffled = ceil_div batch_k count * count) as Hl.
    { rewrite Hperm. unfold full_range. by rewrite length_fmap, length_seq. }
    rewrite Hl in Hge.
    split; [done|]. split; [done|]. intros Hrem.
    etrans; [|exact Hge].
    assert (0 < count) as Hc by lia.
    pose proof (ceil_div_covers batch_k count Hc) as Hcov.
    pose proof (ceil_div_tight batch_k count Hc) as Htight.
    pose proof (Nat.div_mod_eq batch_k count) as Hdm.
    pose proof (Nat.mod_upper_bound batch_k count ltac:(lia)) as Hlt.
    destruct Hrem as [Hr|Hr].
    + rewrite Hr in Hdm.
      assert (ceil_div batch_k count = batch_k / count) as -> by nia. nia.
    + destruct (decide (count = 1)) as [Hc1|Hc1].
      * assert (ceil_div batch_k count = batch_k / count) as -> by nia. nia.
      * assert (ceil_div batch_k count = S (batch_k / count)) as -> by nia. nia.
  - intros Hr1 Hr2.
    assert (0 < count) as Hc by lia.
    pose proof (ceil_div_covers batch_k count Hc) as Hcov.
    pose proof (ceil_div_tight batch_k count Hc) as Htight.
    pose proof (Nat.div_mod_eq batch_k count) as Hdm.
    assert (ceil_div batch_k count = S (batch_k / count)) as Hceil by nia.
    assert (1 ≤ batch_k / count) as Hq by nia.
    set (pool := full_range (ceil_div batch_k count * count) count).
    assert (occurrences 0 pool = S (batch_k / count)) as Hocc.
    { unfold pool. rewrite occurrences_full_range by done. done. }
    destruct (pool_two_last 0 pool) as (rest & Hperm & Hrest); [lia|].
    destruct (random_shuffle_any_permutation pool (rest ++ [0; 0]) Hperm)
      as (s0 & Hs0).
    assert (length rest + 2 = ceil_div batch_k count * count) as Hlen_rest.
    { apply Permutation_length in Hperm. rewrite length_app in Hperm.
      simpl in Hperm. rewrite <- Hperm. unfold pool, full_range.
      by rewrite length_fmap, length_seq. }
    assert (batch_k ≤ length rest) as Hcut by nia.
    assert (Forall (λ i, i < count) (take batch_k rest)) as Hrange.
    { apply Forall_forall. intros i Hi.
      apply (full_range_lt (ceil_div batch_k count * count) count); [done|].
      fold pool. rewrite Hperm. apply elem_of_app. left.
      eapply elem_of_sublist; [done|apply sublist_take]. }
    destruct (gather_returns (possible_fids_of pid all_fids all_pids)
                (take batch_k rest) Hrange [])
      as (sel & s' & Hg & Hd).
    exists s0, (take batch_k rest), sel, s'. split; [|split; [done|]].
    + unfold sample_k_fids_for_pid, boolean_mask.
      rewrite decide_True by (rewrite length_fmap; exact Hlen).
      unfold op_bind at 1, op_ret at 1.
      fold (possible_fids_of pid all_fids all_pids). fold count.
      rewrite f32_ceil_quotient_exact by done. fold pool.
      unfold op_bind at 1. rewrite Hs0.
      rewrite take_app_le by done.
      unfold op_bind. by rewrite Hg.
    + exists 0. split; [done|].
      pose proof (occurrences_take_le 0 batch_k rest). lia.
Qed.

Lemma sample_k_oversampling_bounds_witness :
  (∃ indices selected s',
     sample_k_fids_for_pid "C" ["c1"; "c2"; "c3"; "c4"] ["C"; "C"; "C"; "C"] 5
         [3; 1; 4; 1; 5]
       = (Ok (selected, replicate 5 "C"), s') ∧
     drawn (possible_fids_of "C" ["c1"; "c2"; "c3"; "c4"] ["C"; "C"; "C"; "C"])
       indices selected ∧
     ∀ i, i < 4 →
       occurrences i indices ≤ ceil_div 5 4 ∧
       ceil_div 5 4 - (ceil_div 5 4 * 4 - 5) ≤ occurrences i indices ∧
       (5 mod 4 = 0 ∨ S (5 mod 4) = 4 → 5 / 4 ≤ occurrences i indices)) ∧
  (0 < 5 mod 4 → S (5 mod 4) < 4 →
   ∃ s0 indices selected s',
     sample_k_fids_for_pid "C" ["c1"; "c2"; "c3"; "c4"] ["C"; "C"; "C"; "C"] 5 s0
       = (Ok (selected, replicate 5 "C"), s') ∧
     drawn (possible_fids_of "C" ["c1"; "c2"; "c3"; "c4"] ["C"; "C"; "C"; "C"])
       indices selected ∧
     ∃ i, i < 4 ∧ occurrences i indices < 5 / 4).
Proof.
  apply (sample_k_oversampling_bounds "C" ["c1"; "c2"; "c3"; "c4"]
           ["C"; "C"; "C"; "C"] 5 [3; 1; 4; 1; 5]).
  - reflexivity.
  - vm_compute. lia.
  - vm_compute. discriminate.
Defined.

(** C2, as stated, fails: with three samples and K = 4 the pool is
    [0; 1; 2; 0; 1; 2]; the shuffle below puts both copies of sample 2
    behind the slice, so that sample is drawn 0 < floor(4/3) times. *)
Lemma sample_k_unbalanced_draw :
  sample_k_fids_for_pid "C" ["c1"; "c2"; "c3"] ["C"; "C"; "C"] 4
      [0; 0; 1; 1; 0; 0]
    = (Ok (["c1"; "c2"; "c1"; "c2"], replicate 4 "C"), []) ∧
  drawn (possible_fids_of "C" ["c1"; "c2"; "c3"] ["C"; "C"; "C"])
    [0; 1; 0; 1] ["c1"; "c2"; "c1"; "c2"] ∧
  length (possible_fids_of "C" ["c1"; "c2"; "c3"] ["C"; "C"; "C"]) = 3 ∧
  ¬ (4 / 3 ≤ occurrences 2 [0; 1; 0; 1]).
Proof.
  split; [vm_compute; reflexivity|]. split; [repeat constructor|].
  split; [reflexivity|]. vm_compute. lia.
Qed.

(** ** The stages of the pipeline *)

Section DatasetStages.
Context {A : Type}.
Implicit Types (ds : Dataset A) (P : list A → Prop).

Lemma ds_shuffle_returns buffer_size ds P :
  0 < buffer_size → returns ds P →
  returns (ds_shuffle buffer_size ds) (λ l', ∃ l, P l ∧ l' ≡ₚ l).
Proof.
  intros Hb Hds. unfold ds_shuffle. rewrite decide_False by lia.
  eapply returns_bind; [exact Hds|]. intros l Hl.
  eapply returns_mono.
  - apply shuffle_buffer_perm.
    + rewrite length_take, length_drop. lia.
    + intros Hnil. destruct l; [by rewrite drop_nil|].
      destruct buffer_size; [lia|done].
  - intros l' Hl'. exists l. by rewrite take_drop in Hl'.
Qed.

Lemma ds_take_returns n ds P :
  returns ds P → returns (ds_take n ds) (λ l', ∃ l, P l ∧ l' = take n l).
Proof.
  intros Hds. eapply returns_bind; [exact Hds|]. intros l Hl.
  apply returns_ret. eauto.
Qed.

Lemma ds_repeat_returns epochs m ds P :
  returns ds P → (∀ l, P l → length l = m) →
  returns (ds_repeat epochs ds)
    (λ l, ∃ eps, l = concat eps ∧ Forall P eps ∧
                 length eps * m = epochs * m).
Proof.
  intros Hds Hm. induction epochs as [|epochs IH]; simpl.
  - apply returns_ret. by exists [].
  - eapply returns_bind; [exact Hds|]. intros ep Hep.
    destruct ep as [|x ep'] eqn:Heq.
    + apply returns_ret. exists []. repeat split; [constructor|].
      apply Hm in Hep. simpl in Hep. subst m. lia.
    + rewrite <- Heq in *. clear Heq x ep'.
      eapply returns_bind; [exact IH|]. intros rest (eps & -> & Heps & Hn).
      apply returns_ret. exists (ep :: eps).
      repeat split; [by constructor|]. simpl. lia.
Qed.

Lemma ds_map_returns {B} (f : A → Op B) (R : A → B → Prop) ds P :
  returns ds P → (∀ l, P l → ∀ x, x ∈ l → returns (f x) (R x)) →
  returns (ds_map f ds) (λ l', ∃ l, P l ∧ Forall2 R l l').
Proof.
  intros Hds Hf. eapply returns_bind; [exact Hds|]. intros l Hl.
  eapply returns_mono; [apply returns_mapM; by apply Hf|]. eauto.
Qed.

Lemma ds_map_pure_returns {B} (f : A → B) ds P :
  returns ds P →
  returns (ds_map (λ e, op_ret (f e)) ds) (λ l', ∃ l, P l ∧ l' = f <$> l).
Proof.
  intros Hds. eapply returns_mono.
  - apply (ds_map_returns _ (λ x y, y = f x) _ P); [done|].
    intros. by apply returns_ret.
  - intros l' (l & Hl & HF). exists l. split; [done|].
    clear Hl. induction HF; csimpl; congruence.
Qed.

Lemma ds_batch_returns batch_size ds P :
  0 < batch_size → returns ds P →
  returns (ds_batch batch_size ds)
    (λ bs, ∃ l, P l ∧ bs = chunks_from (length l) batch_size l).
Proof.
  intros Hb Hds. unfold ds_batch. rewrite decide_False by lia.
  eapply returns_bind; [exact Hds|]. intros l Hl. apply returns_ret. eauto.
Qed.

Lemma ds_map_ensures {B} (f : A → Op B) (R : A → B → Prop) ds P :
  ensures ds P → (∀ l, P l → ∀ x, x ∈ l → ensures (f x) (R x)) →
  ensures (ds_map f ds) (λ l', ∃ l, P l ∧ Forall2 R l l').
Proof.
  intros Hds Hf. eapply ensures_bind; [exact Hds|]. intros l Hl.
  eapply ensures_mono; [apply ensures_mapM; by apply Hf|]. eauto.
Qed.

Lemma ds_batch_ensures batch_size ds P :
  ensures ds P →
  ensures (ds_batch batch_size ds)
    (λ bs, ∃ l, P l ∧ bs = chunks_from (length l) batch_size l).
Proof.
  intros Hds. unfold ds_batch. destruct (decide (batch_size = 0)); [done|].
  eapply ensures_bind; [exact Hds|]. intros l Hl. apply ensures_ret. eauto.
Qed.

End DatasetStages.

Lemma ds_unbatch_returns {A B} (ds : Dataset (list A * list B))
    (P : list (list A * list B) → Prop) :
  returns ds P →
  (∀ l, P l → Forall (λ e, length e.1 = length e.2) l) →
  returns (ds_unbatch ds)
    (λ l', ∃ l, P l ∧ l' = concat ((λ e, zip e.1 e.2) <$> l)).
Proof.
  intros Hds Hlen. eapply returns_bind; [exact Hds|]. intros l Hl.
  eapply returns_bind.
  - apply (returns_mapM _ (λ e part, part = zip e.1 e.2)).
    intros e He. unfold unbatch_element.
    rewrite decide_True; [by apply returns_ret|].
    specialize (Hlen l Hl). rewrite Forall_forall in Hlen. by apply Hlen.
  - intros parts HF. apply returns_ret. exists l. split; [done|]. f_equal.
    clear Hl. induction HF; csimpl; congruence.
Qed.

(** An element passes [unbatch] only if its two components agree in
    length. *)
Lemma ds_unbatch_ensures {A B} (ds : Dataset (list A * list B))
    (P : list (list A * list B) → Prop) :
  ensures ds P →
  ensures (ds_unbatch ds)
    (λ l', ∃ l, P l ∧ Forall (λ e, length e.1 = length e.2) l ∧
                l' = concat ((λ e, zip e.1 e.2) <$> l)).
Proof.
  intros Hds. eapply ensures_bind; [exact Hds|]. intros l Hl.
  eapply ensures_bind.
  - apply (ensures_mapM _ (λ e part, length e.1 = length e.2 ∧ part = zip e.1 e.2)).
    intros e He s part s'. unfold unbatch_element.
    destruct (decide (length e.1 = length e.2)); [|done].
    by intros [= <- _].
  - intros parts HF. apply ensures_ret. exists l. split; [done|].
    clear Hl. induction HF as [|e part l parts [Hl ->] _ [IH1 IH2]].
    + by split.
    + split; [by constructor|]. csimpl. by rewrite IH2.
Qed.

(** ** Regrouping a flat stream *)

Lemma split_pieces {A} (q n : nat) (l : list A) :
  length l = q * n →
  ∃ pieces, l = concat pieces ∧ length pieces = q ∧
            Forall (λ p, length p = n ∧ p `sublist_of` l) pieces.
Proof.
  revert l. induction q as [|q IH]; intros l Hl.
  - exists []. destruct l; [|done]. repeat split. constructor.
  - destruct (IH (drop n l)) as (pieces & Hc & Hlen & HF).
    { rewrite length_drop. simpl in Hl. lia. }
    exists (take n l :: pieces). simpl. rewrite <- Hc, take_drop.
    repeat split; [by rewrite Hlen|]. constructor.
    + split; [|apply sublist_take]. rewrite length_take. simpl in Hl. lia.
    + eapply Forall_impl; [exact HF|]. intros p [? ?]. split; [done|].
      etrans; [done|]. apply sublist_drop.
Qed.

Lemma elem_of_concat {A} (x : A) (ls : list (list A)) :
  x ∈ concat ls → ∃ l, x ∈ l ∧ l ∈ ls.
Proof.
  induction ls as [|l ls IH]; simpl.
  - intros H. by apply elem_of_nil in H.
  - intros [Hx|Hx]%elem_of_app.
    + exists l. split; [done|left].
    + destruct (IH Hx) as (l' & ? & ?). exists l'. split; [done|by right].
Qed.

(** ** Blocks of identities *)

Lemma length_bind_replicate {A} (k : nat) (l : list A) :
  length (l ≫= replicate k) = length l * k.
Proof.
  induction l as [|x l IH]; [done|].
  rewrite bind_cons, length_app, length_replicate, IH. simpl. lia.
Qed.

Lemma count_occ_replicate (k : nat) (x y : string) :
  count_occ String.string_dec (replicate k x) y = if decide (x = y) then k else 0.
Proof.
  induction k as [|k IH]; simpl.
  - by destruct (decide (x = y)).
  - rewrite IH. destruct (String.string_dec x y), (decide (x = y)); congruence.
Qed.

Lemma count_occ_bind_replicate (k : nat) (l : list string) (y : string) :
  NoDup l →
  count_occ String.string_dec (l ≫= replicate k) y = if decide (y ∈ l) then k else 0.
Proof.
  induction 1 as [|x l Hx _ IH]; [done|].
  rewrite bind_cons, count_occ_app, count_occ_replicate, IH.
  destruct (decide (x = y)) as [->|Hne].
  - rewrite decide_False by done. rewrite decide_True by left. lia.
  - destruct (decide (y ∈ l)) as [Hy|Hy].
    + rewrite decide_True by (by right). lia.
    + rewrite decide_False; [lia|].
      intros [?|?]%elem_of_cons; congruence.
Qed.

Lemma pk_batch_intro {Image} (batch_p batch_k : nat)
    (batch : list (Image * string * string)) (identities : list string) :
  1 ≤ batch_k → length identities = batch_p → NoDup identities →
  batch.*2 = identities ≫= replicate batch_k →
  pk_batch batch_p batch_k batch.
Proof.
  intros Hk Hlen Hnd Hb. split.
  - rewrite <- (length_fmap snd batch), Hb, length_bind_replicate. by rewrite Hlen.
  - exists identities. repeat split; try done.
    + rewrite Hb. intros (p & Hp & Hin)%list_elem_of_bind.
      by apply elem_of_replicate in Hp as [-> _].
    + rewrite Hb. intros Hin. apply list_elem_of_bind. exists pid.
      split; [|done]. apply elem_of_replicate. split; [done|lia].
    + intros pid Hin. rewrite Hb, count_occ_bind_replicate by done.
      by rewrite decide_True.
Qed.

(** ** The dataset behind the pipeline *)

Lemma np_unique_perm (l : list string) : np_unique l ≡ₚ remove_dups l.
Proof. apply merge_sort_Permutation. Qed.

Lemma np_unique_NoDup (l : list string) : NoDup (np_unique l).
Proof. rewrite np_unique_perm. apply NoDup_remove_dups. Qed.

Lemma np_unique_elem (l : list string) (x : string) : x ∈ np_unique l ↔ x ∈ l.
Proof. rewrite np_unique_perm. apply elem_of_remove_dups. Qed.

Lemma np_unique_nonempty (l : list string) : l ≠ [] → 0 < length (np_unique l).
Proof.
  intros Hl. destruct l as [|x l]; [done|].
  assert (x ∈ np_unique (x :: l)) as Hx by (apply np_unique_elem; left).
  destruct (np_unique (x :: l)); [by apply elem_of_nil in Hx|simpl; lia].
Qed.

Lemma mask_select_intro {A} (tensor : list A) (mask : list bool) (j : nat) (x : A) :
  tensor !! j = Some x → mask !! j = Some true → x ∈ mask_select tensor mask.
Proof.
  revert mask j. induction tensor as [|y t IH]; intros [|b m] [|j]; try done; simpl.
  - intros [= ->] [= ->]. left.
  - intros Ht Hm. destruct b; [right|]; by eapply IH.
Qed.

Lemma possible_fids_of_nonempty (pid : string) (all_fids all_pids : list string) :
  length all_fids = length all_pids → pid ∈ all_pids →
  1 ≤ length (possible_fids_of pid all_fids all_pids).
Proof.
  intros Hlen (j & Hj)%list_elem_of_lookup_1.
  destruct (lookup_lt_is_Some_2 all_fids j) as [f Hf].
  { rewrite Hlen. by eapply lookup_lt_Some. }
  assert (f ∈ possible_fids_of pid all_fids all_pids) as Hin.
  { eapply mask_select_intro; [done|].
    rewrite list_lookup_fmap, Hj. simpl. by rewrite bool_decide_eq_true_2. }
  destruct (possible_fids_of pid all_fids all_pids);
    [by apply elem_of_nil in Hin|simpl; lia].
Qed.

(** One call for an identity of the dataset yields K FIDs of that
    identity and K labels, for K in the exact range of float32. *)
Lemma sample_k_sampled (pid : string) (all_fids all_pids : list string) (batch_k : nat) :
  length all_fids = length all_pids →
  1 ≤ length (possible_fids_of pid all_fids all_pids) →
  (Z.of_nat batch_k ≤ 2 ^ 24)%Z →
  returns (sample_k_fids_for_pid pid all_fids all_pids batch_k)
    (sampled all_fids all_pids batch_k pid).
Proof.
  intros Hlen Hcount Hk. eapply returns_mono; [by apply sample_k_spec_exact|].
  intros [sel lbl] (shuffled & Hperm & Hd & Hlbl). simpl in *.
  split; [split; [|done]|].
  - simpl. rewrite (drawn_length _ _ _ Hd), length_take, Hperm.
    unfold full_range. rewrite length_fmap, length_seq.
    pose proof (ceil_div_covers batch_k _ Hcount). lia.
  - simpl. intros f Hf. destruct (drawn_elem _ _ _ _ Hd Hf) as (i & _ & Hi).
    by eapply list_elem_of_lookup_2.
Qed.

(** For every K, what a call returns is K copies of the PID next to
    FIDs of that identity. *)
Lemma sample_k_labelled (pid : string) (all_fids all_pids : list string)
    (batch_k : nat) :
  length all_fids = length all_pids →
  ensures (sample_k_fids_for_pid pid all_fids all_pids batch_k)
    (λ r, r.2 = replicate batch_k pid ∧
          ∀ f, f ∈ r.1 → f ∈ possible_fids_of pid all_fids all_pids).
Proof.
  intros Hlen. apply returns_ensures.
  eapply returns_mono; [by apply sample_k_spec|].
  intros [sel lbl] (shuffled & Hperm & Hd & Hlbl). simpl in *.
  split; [done|]. intros f Hf.
  destruct (drawn_elem _ _ _ _ Hd Hf) as (i & _ & Hi).
  by eapply list_elem_of_lookup_2.
Qed.

(** One epoch: the shuffled identities, cut to a multiple of [batch_p]. *)
Lemma epoch_returns (pids : list string) (batch_p : nat) :
  pids ≠ [] →
  let unique_pids := np_unique pids in
  let m := length unique_pids / batch_p * batch_p in
  returns
    (ds_take m (ds_shuffle (length unique_pids) (from_tensor_slices unique_pids)))
    (λ ep, length ep = m ∧ NoDup ep ∧ ∀ p, p ∈ ep → p ∈ pids).
Proof.
  intros Hne unique_pids m. eapply returns_mono.
  - apply ds_take_returns, ds_shuffle_returns.
    + by apply np_unique_nonempty.
    + apply (returns_ret unique_pids (λ l, l = unique_pids)). done.
  - intros ep (l' & (l & -> & Hperm) & ->). repeat split.
    + rewrite length_take, Hperm.
      pose proof (Nat.Div0.mul_div_le (length unique_pids) batch_p).
      unfold m. lia.
    + eapply sublist_NoDup; [|apply sublist_take].
      rewrite Hperm. apply np_unique_NoDup.
    + intros p Hp. apply np_unique_elem. fold unique_pids. rewrite <- Hperm.
      eapply elem_of_sublist; [done|apply sublist_take].
Qed.

(** The identities of all epochs, as [Dataset.repeat] yields them. *)
Lemma epochs_returns (pids : list string) (batch_p epochs : nat) :
  pids ≠ [] →
  let unique_pids := np_unique pids in
  let m := length unique_pids / batch_p * batch_p in
  returns
    (ds_repeat epochs
       (ds_take m (ds_shuffle (length unique_pids) (from_tensor_slices unique_pids))))
    (λ l, ∃ eps, l = concat eps ∧
          Forall (λ ep, length ep = m ∧ NoDup ep ∧ ∀ p, p ∈ ep → p ∈ pids) eps ∧
          length eps * m = epochs * m).
Proof.
  intros Hne unique_pids m.
  apply (ds_repeat_returns _ m); [by apply epoch_returns|]. by intros l [? _].
Qed.

(** ** Regrouping undoes the flattening *)

Lemma epochs_split (q batch_p : nat) (eps : list (list string)) :
  Forall (λ ep, length ep = q * batch_p ∧ NoDup ep ∧ True) eps →
  ∃ pss, concat eps = concat pss ∧ length pss = length eps * q ∧
         Forall (λ ps, length ps = batch_p ∧ NoDup ps) pss.
Proof.
  induction 1 as [|ep eps (Hlen & Hnd & _) _ (pss & Hc & Hl & HF)].
  - by exists [].
  - destruct (split_pieces q batch_p ep Hlen) as (pieces & Hep & Hq & Hp).
    exists (pieces ++ pss). simpl. rewrite concat_app, <- Hc, <- Hep.
    split; [done|]. split; [rewrite length_app; lia|].
    apply Forall_app. split; [|done].
    eapply Forall_impl; [exact Hp|]. intros p [? ?]. split; [done|].
    by eapply sublist_NoDup.
Qed.

(** A stream whose PIDs come in runs of [batch_k] per identity, the
    identities in groups of [batch_p] distinct ones, is cut by
    [batch(batch_p * batch_k)] into PK batches, one per group. *)
Lemma chunks_pk {Image} (batch_p batch_k : nat) (pss : list (list string))
    (flat : list (Image * string * string)) (fuel : nat) :
  1 ≤ batch_p → 1 ≤ batch_k →
  Forall (λ ps, length ps = batch_p ∧ NoDup ps) pss →
  flat.*2 = concat pss ≫= replicate batch_k →
  length flat ≤ fuel →
  length (chunks_from fuel (batch_p * batch_k) flat) = length pss ∧
  Forall (pk_batch batch_p batch_k) (chunks_from fuel (batch_p * batch_k) flat).
Proof.
  intros Hp Hk Hpss. revert flat fuel.
  induction Hpss as [|ps pss [Hl Hnd] _ IH]; intros flat fuel Hflat Hfuel.
  - apply fmap_nil_inv in Hflat as ->. by destruct fuel.
  - simpl in Hflat. rewrite bind_app in Hflat.
    assert (length (ps ≫= replicate batch_k) = batch_p * batch_k) as Hn.
    { by rewrite length_bind_replicate, Hl. }
    assert (batch_p * batch_k ≤ length flat) as Hge.
    { rewrite <- (length_fmap snd flat), Hflat, length_app. lia. }
    destruct fuel as [|fuel]; [nia|].
    destruct flat as [|x flat'] eqn:Hx; [simpl in Hge; nia|].
    rewrite <- Hx in *. clear Hx x flat'.
    assert (chunks_from (S fuel) (batch_p * batch_k) flat
            = take (batch_p * batch_k) flat
                :: chunks_from fuel (batch_p * batch_k) (drop (batch_p * batch_k) flat))
      as ->.
    { destruct flat; [simpl in Hge; nia|done]. }
    destruct (IH (drop (batch_p * batch_k) flat) fuel) as [IHl IHpk].
    { rewrite fmap_drop, Hflat, <- Hn. by rewrite drop_app_length. }
    { rewrite length_drop. nia. }
    split; [simpl; by rewrite IHl|]. constructor; [|done].
    apply (pk_batch_intro _ _ _ ps); try done.
    rewrite fmap_take, Hflat, <- Hn. by rewrite take_app_length.
Qed.

Lemma carries_pids {Image} (l : list (string * string))
    (flat : list (Image * string * string)) :
  Forall2 carries l flat → flat.*2 = l.*2.
Proof.
  induction 1 as [|e x l flat [_ Hx] _ IH]; [done|]. csimpl. by rewrite Hx, IH.
Qed.

Lemma shaped_pids (batch_k : nat) (ps : list string)
    (groups : list (list string * list string)) :
  Forall2 (shaped batch_k) ps groups →
  (concat ((λ g, zip g.1 g.2) <$> groups)).*2 = ps ≫= replicate batch_k.
Proof.
  induction 1 as [|p g ps groups [Hl Hr] _ IH]; [done|].
  csimpl. rewrite fmap_app, IH. f_equal.
  rewrite snd_zip; [done|]. rewrite Hr, length_replicate. lia.
Qed.

Lemma epoch_stream_pids {Image} (fids pids : list string)
    (batch_p batch_k epochs : nat)
    (eps : list (list string)) (groups : list (list string * list string))
    (flat : list (Image * string * string)) :
  Forall2 (sampled fids pids batch_k) (concat eps) groups →
  Forall2 carries (concat ((λ g, zip g.1 g.2) <$> groups)) flat →
  flat.*2 = concat eps ≫= replicate batch_k.
Proof.
  intros HF Hc. rewrite (carries_pids _ _ Hc). apply shaped_pids.
  eapply Forall2_impl; [exact HF|]. by intros p g [? _].
Qed.

(** The batches of an epoch stream are PK batches, [n // batch_p] per
    epoch. *)
Lemma epoch_stream_pk_batches {Image} (fids pids : list string)
    (batch_p batch_k epochs : nat)
    (batches : list (list (Image * string * string))) :
  1 ≤ batch_p → 1 ≤ batch_k →
  epoch_stream fids pids batch_p batch_k epochs batches →
  length batches = epochs * (length (np_unique pids) / batch_p) ∧
  ∀ b, b ∈ batches → pk_batch batch_p batch_k b.
Proof.
  intros Hp Hk (eps & groups & flat & Heps & Hn & HF & Hc & ->).
  set (q := length (np_unique pids) / batch_p) in *.
  destruct (epochs_split q batch_p eps) as (pss & Hcat & Hl & Hpss).
  { eapply Forall_impl; [exact Heps|]. by intros ep (? & ? & _). }
  pose proof (epoch_stream_pids fids pids batch_p batch_k epochs _ _ _ HF Hc)
    as Hpids.
  rewrite Hcat in Hpids.
  destruct (chunks_pk batch_p batch_k pss flat (length flat) Hp Hk Hpss Hpids)
    as [Hlen Hpk]; [done|].
  split; [|by apply Forall_forall]. rewrite Hlen, Hl. nia.
Qed.

(** ** The training pipeline *)

Lemma Forall2_compose {A B C} (R1 : A → B → Prop) (R2 : B → C → Prop)
    (R3 : A → C → Prop) (l : list A) (k : list B) (m : list C) :
  (∀ a b c, R1 a b → R2 b c → R3 a c) →
  Forall2 R1 l k → Forall2 R2 k m → Forall2 R3 l m.
Proof.
  intros HR H1. revert m. induction H1 as [|a b l k Hab _ IH]; intros m H2.
  - apply Forall2_nil_inv_l in H2 as ->. constructor.
  - apply Forall2_cons_inv_l in H2 as (c & m' & Hbc & H2 & ->).
    constructor; [by eapply HR|by apply IH].
Qed.

(** Whenever the pipeline yields its batches, they are cut from an epoch
    stream; this holds for every K. *)
Lemma train_dataset_stream {Image} (fid_to_image : string → Image)
    (augment : Image → Op Image) (pids fids : list string)
    (batch_p batch_k epochs : nat) :
  length fids = length pids → pids ≠ [] → 1 ≤ batch_p → 1 ≤ batch_k →
  ensures
    (train_dataset fid_to_image augment pids fids batch_p batch_k epochs)
    (epoch_stream fids pids batch_p batch_k epochs).
Proof.
  intros Hlen Hne Hp Hk.
  unfold train_dataset, py_floordiv, ds_prefetch. rewrite decide_False by lia.
  set (q := length (np_unique pids) / batch_p).
  apply (ensures_bind _ _ (λ a, a = q)); [by apply ensures_ret|]. intros ? ->.
  eapply ensures_mono.
  - apply ds_batch_ensures.
    apply (ds_map_ensures _ (λ x1 x, x.1.2 = x1.1.2 ∧ x.2 = x1.2)).
    + apply (ds_map_ensures _ (λ e x1, x1.1.2 = e.1 ∧ x1.2 = e.2)).
      * apply ds_unbatch_ensures.
        apply (ds_map_ensures _
                 (λ pid r, r.2 = replicate batch_k pid ∧
                           ∀ f, f ∈ r.1 → f ∈ possible_fids_of pid fids pids)).
        -- apply returns_ensures. by apply epochs_returns.
        -- intros l _ pid _. by apply sample_k_labelled.
      * intros l _ e _. by apply ensures_ret.
    + intros l _ x1 _. eapply ensures_bind with (P := λ _, True); [done|].
      intros im _. by apply ensures_ret.
  - intros batches (flat & (flat1 & (flat0 & Hflat0 & HF1) & HF2) & ->).
    destruct Hflat0 as (groups & (l & (eps & -> & Heps & Hn) & HF) & Hlens & ->).
    exists eps, groups, flat. repeat split; try done.
    + clear -HF Hlens. induction HF as [|p g ps gs [Hr Hin] _ IH]; [constructor|].
      apply Forall_cons in Hlens as [Hl Hlens]. constructor; [|by apply IH].
      split; [split; [|done]|done]. rewrite Hl, Hr. apply length_replicate.
    + eapply Forall2_compose; [|exact HF1|exact HF2].
      intros e x1 x [? ?] [? ?]. split; congruence.
Qed.

(** For K in the exact range of float32 and an augmentation that does
    not raise, the pipeline does not raise on a non-empty dataset. *)
Lemma train_dataset_total {Image} (fid_to_image : string → Image)
    (augment : Image → Op Image) (pids fids : list string)
    (batch_p batch_k epochs : nat) :
  length fids = length pids → pids ≠ [] → 1 ≤ batch_p → 1 ≤ batch_k →
  (Z.of_nat batch_k ≤ 2 ^ 24)%Z →
  (∀ im s, ∃ im' s', augment im s = (Ok im', s')) →
  returns
    (train_dataset fid_to_image augment pids fids batch_p batch_k epochs)
    (λ _, True).
Proof.
  intros Hlen Hne Hp Hk Hbound Haug.
  unfold train_dataset, py_floordiv, ds_prefetch. rewrite decide_False by lia.
  set (q := length (np_unique pids) / batch_p).
  apply (returns_bind _ _ (λ a, a = q)); [by apply returns_ret|]. intros ? ->.
  eapply returns_mono; [|done].
  apply ds_batch_returns; [nia|].
  apply (ds_map_returns _ (λ _ _, True)).
  - apply ds_map_pure_returns. apply ds_unbatch_returns.
    + apply (ds_map_returns _ (sampled fids pids batch_k)).
      * by apply epochs_returns.
      * intros l (eps & -> & Heps & _) pid Hin.
        apply elem_of_concat in Hin as (ep & Hpid & Hep).
        rewrite Forall_forall in Heps. destruct (Heps ep Hep) as (_ & _ & Hin).
        apply sample_k_sampled; [done| |done].
        apply possible_fids_of_nonempty; [done|]. by apply Hin.
    + intros groups (l & _ & HF). clear -HF.
      induction HF as [|p g ps gs [[Hl Hr] _] _ IH]; constructor; [|done].
      by rewrite Hl, Hr, length_replicate.
  - intros l _ x _. apply (returns_bind _ _ (λ _, True)).
    + intros s. destruct (Haug x.1.1 s) as (im' & s' & Hrun). by exists im', s'.
    + intros im _. by apply returns_ret.
Qed.

(** C1: every batch the training pipeline yields has
    [batch_p * batch_k] elements and carries exactly [batch_p] distinct
    identities, each exactly [batch_k] times, in [batch_p] consecutive
    blocks of [batch_k]; there are [length unique_pids / batch_p] batches
    per epoch.  For K up to 2^24 and an augmentation that does not raise,
    the pipeline does yield its batches. *)
Theorem train_dataset_pk_batches {Image} (fid_to_image : string → Image)
    (augment : Image → Op Image) (pids fids : list string)
    (batch_p batch_k epochs : nat) (s : rng) :
  length fids = length pids → pids ≠ [] → 1 ≤ batch_p → 1 ≤ batch_k →
  (∀ batches s',
     train_dataset fid_to_image augment pids fids batch_p batch_k epochs s
       = (Ok batches, s') →
     length batches = epochs * (length (np_unique pids) / batch_p) ∧
     ∀ b, b ∈ batches → pk_batch batch_p batch_k b) ∧
  ((Z.of_nat batch_k ≤ 2 ^ 24)%Z →
   (∀ im s0, ∃ im' s1, augment im s0 = (Ok im', s1)) →
   ∃ batches s',
     train_dataset fid_to_image augment pids fids batch_p batch_k epochs s
       = (Ok batches, s') ∧
     length batches = epochs * (length (np_unique pids) / batch_p) ∧
     ∀ b, b ∈ batches → pk_batch batch_p batch_k b).
Proof.
  intros Hlen Hne Hp Hk.
  pose proof (train_dataset_stream fid_to_image augment pids fids batch_p batch_k
                epochs Hlen Hne Hp Hk) as Hstream.
  split.
  - intros batches s' Hrun.
    apply (epoch_stream_pk_batches fids pids batch_p batch_k epochs); [done..|].
    by eapply Hstream.
  - intros Hbound Haug.
    destruct (train_dataset_total fid_to_image augment pids fids batch_p batch_k
                epochs Hlen Hne Hp Hk Hbound Haug s) as (batches & s' & Hrun & _).
    exists batches, s'. split; [done|].
    apply (epoch_stream_pk_batches fids pids batch_p batch_k epochs); [done..|].
    by eapply Hstream.
Qed.

Lemma train_dataset_pk_batches_witness :
  (∀ batches s',
     train_dataset (λ fid, fid) op_ret
         ["A"; "B"; "A"; "C"; "B"] ["a1"; "b1"; "a2"; "c1"; "b2"] 2 3 2
         [2; 0; 5; 3; 1; 4; 1; 5; 9; 2; 6; 5; 3; 5]
       = (Ok batches, s') →
     length batches = 2 * (length (np_unique ["A"; "B"; "A"; "C"; "B"]) / 2) ∧
     ∀ b, b ∈ batches → pk_batch 2 3 b) ∧
  ((Z.of_nat 3 ≤ 2 ^ 24)%Z →
   (∀ (im : string) (s0 : rng), ∃ im' s1, op_ret im s0 = (Ok im', s1)) →
   ∃ batches s',
     train_dataset (λ fid, fid) op_ret
         ["A"; "B"; "A"; "C"; "B"] ["a1"; "b1"; "a2"; "c1"; "b2"] 2 3 2
         [2; 0; 5; 3; 1; 4; 1; 5; 9; 2; 6; 5; 3; 5]
       = (Ok batches, s') ∧
     length batches = 2 * (length (np_unique ["A"; "B"; "A"; "C"; "B"]) / 2) ∧
     ∀ b, b ∈ batches → pk_batch 2 3 b).
Proof.
  apply (train_dataset_pk_batches (λ fid, fid) op_ret
           ["A"; "B"; "A"; "C"; "B"] ["a1"; "b1"; "a2"; "c1"; "b2"] 2 3 2
           [2; 0; 5; 3; 1; 4; 1; 5; 9; 2; 6; 5; 3; 5]).
  - reflexivity.
  - discriminate.
  - lia.
  - lia.
Defined.

Example train_dataset_demo :
  (train_dataset (λ fid, fid) op_ret
     ["A"; "B"; "A"; "C"; "B"] ["a1"; "b1"; "a2"; "c1"; "b2"] 2 3 1
     [2; 0; 5; 3; 1; 4; 1; 5; 9; 2; 6; 5; 3; 5]).1
  = Ok [[("c1", "c1", "C"); ("c1", "c1", "C"); ("c1", "c1", "C");
         ("a2", "a2", "A"); ("a2", "a2", "A"); ("a1", "a1", "A")]].
Proof. vm_compute. reflexivity. Qed.

(** With fewer identities than [batch_p] no element reaches the
    K-selector or the augmentation. *)
Lemma ds_map_nil {A B} (f : A → Op B) (ds : Dataset A) :
  returns ds (λ l, l = []) → returns (ds_map f ds) (λ l, l = []).
Proof.
  intros Hds. eapply returns_bind; [exact Hds|]. intros l ->.
  by apply returns_ret.
Qed.

Lemma ds_unbatch_nil {A B} (ds : Dataset (list A * list B)) :
  returns ds (λ l, l = []) → returns (ds_unbatch ds) (λ l, l = []).
Proof.
  intros Hds. eapply returns_bind; [exact Hds|]. intros l ->.
  by apply returns_ret.
Qed.

Lemma ds_repeat_nil {A} (epochs : nat) (ds : Dataset A) :
  returns ds (λ l, l = []) → returns (ds_repeat epochs ds) (λ l, l = []).
Proof.
  intros Hds. destruct epochs as [|epochs]; simpl; [by apply returns_ret|].
  eapply returns_bind; [exact Hds|]. intros l ->. by apply returns_ret.
Qed.

Lemma train_dataset_empty {Image} (fid_to_image : string → Image)
    (augment : Image → Op Image) (pids fids : list string)
    (batch_p batch_k epochs : nat) :
  pids ≠ [] → 1 ≤ batch_k → length (np_unique pids) < batch_p →
  returns
    (train_dataset fid_to_image augment pids fids batch_p batch_k epochs)
    (λ batches, batches = []).
Proof.
  intros Hne Hk Hp.
  unfold train_dataset, py_floordiv, ds_prefetch. rewrite decide_False by lia.
  apply (returns_bind _ _ (λ a, a = 0)).
  { apply returns_ret. by apply Nat.div_small. }
  intros ? ->. eapply returns_mono.
  - apply ds_batch_returns; [nia|].
    do 2 apply ds_map_nil. apply ds_unbatch_nil, ds_map_nil, ds_repeat_nil.
    eapply returns_mono.
    + apply ds_take_returns, ds_shuffle_returns.
      * by apply np_unique_nonempty.
      * apply (returns_ret _ (λ _, True)). done.
    + by intros ep (l & _ & ->).
  - by intros batches (l & -> & ->).
Qed.

(** C5, as the code has it: with fewer unique identities than [batch_p]
    the setup of the sampler does not raise; every epoch is cut to zero
    identities and the pipeline yields no batch at all. *)
Theorem train_dataset_too_few_identities {Image} (fid_to_image : string → Image)
    (augment : Image → Op Image) (pids fids : list string)
    (batch_p batch_k epochs : nat) (s : rng) :
  length fids = length pids → pids ≠ [] → 1 ≤ batch_k →
  length (np_unique pids) < batch_p →
  ∃ s',
    train_dataset fid_to_image augment pids fids batch_p batch_k epochs s
      = (Ok [], s').
Proof.
  intros Hlen Hne Hk Hp.
  destruct (train_dataset_empty fid_to_image augment pids fids batch_p batch_k
              epochs Hne Hk Hp s) as (batches & s' & Hrun & ->).
  by exists s'.
Qed.

Lemma train_dataset_too_few_identities_witness :
  ∃ s',
    train_dataset (λ fid, fid) op_ret
        ["A"; "B"; "A"] ["a1"; "b1"; "a2"] 3 2 4 [1; 0; 2]
      = (Ok [], s').
Proof.
  apply (train_dataset_too_few_identities (λ fid, fid) op_ret
           ["A"; "B"; "A"] ["a1"; "b1"; "a2"] 3 2 4 [1; 0; 2]).
  - reflexivity.
  - discriminate.
  - lia.
  - vm_compute. lia.
Defined.

(** C5, as stated, fails: two identities and [batch_p = 3]; the pipeline
    is set up and returns normally, with no batch. *)
Lemma train_dataset_no_configuration_error :
  length (np_unique ["A"; "B"; "A"]) = 2 ∧
  train_dataset (λ fid, fid) op_ret
      ["A"; "B"; "A"] ["a1"; "b1"; "a2"] 3 2 4 [1; 0; 2]
    = (Ok [], [2]) ∧
  ¬ ∃ e s',
      train_dataset (λ fid, fid) op_ret
          ["A"; "B"; "A"] ["a1"; "b1"; "a2"] 3 2 4 [1; 0; 2]
        = (Raise e, s').
Proof.
  split; [by vm_compute|]. split; [by vm_compute|].
  intros (e & s' & He). vm_compute in He. discriminate.
Qed.

(** ** The namespace *)

Lemma ns_get_set_eq (key : string) (v : value) (ns : namespace) :
  ns_get key (ns_set key v ns) = Some v.
Proof.
  induction ns as [|[k w] ns IH]; simpl.
  - by rewrite decide_True.
  - destruct (decide (k = key)) as [->|Hne]; simpl.
    + by rewrite decide_True.
    + by rewrite decide_False.
Qed.

Lemma ns_get_set_ne (key key' : string) (v : value) (ns : namespace) :
  key' ≠ key → ns_get key (ns_set key' v ns) = ns_get key ns.
Proof.
  intros Hne. induction ns as [|[k w] ns IH]; simpl.
  - by rewrite decide_False.
  - destruct (decide (k = key')) as [->|Hk]; simpl.
    + by rewrite !decide_False.
    + by rewrite IH.
Qed.

Lemma ns_get_elem (key : string) (v : value) (ns : namespace) :
  ns_get key ns = Some v → (key, v) ∈ ns.
Proof.
  induction ns as [|[k w] ns IH]; simpl; [done|].
  destruct (decide (k = key)) as [->|Hne].
  - intros [= ->]. left.
  - intros H. right. by apply IH.
Qed.

(** ** Resuming: the loop over the given arguments *)

Lemma resume_items_spec (items : list (string * value))
    (args_resumed : gmap string value) (args : namespace) (w : world) :
  ∃ args' out,
    resume_items items args_resumed args w
      = (Ok args',
         World (fs w) (stdout w ++ out) (log w) (global_step w) (checkpoints w)) ∧
    (∀ key rv, args_resumed !! key = Some rv →
       ns_get key args = Some rv ∨ (∃ v, (key, v) ∈ items ∧ py_ne rv v = true) →
       ns_get key args' = Some rv) ∧
    (∀ key rv v, (key, v) ∈ items → args_resumed !! key = Some rv →
       py_ne rv v = true → WarnLoadedValue key rv v ∈ out).
Proof.
  revert args w. induction items as [|[k v] items IH]; intros args w; simpl.
  - exists args, []. rewrite app_nil_r. split; [by destruct w|].
    split.
    + intros key rv _ [?|(v & Hin & _)]; [done|]. by apply elem_of_nil in Hin.
    + intros key rv v Hin. by apply elem_of_nil in Hin.
  - destruct (args_resumed !! k) as [rv0|] eqn:Hk.
    + destruct (py_ne rv0 v) eqn:Hne.
      * unfold op_bind, print. simpl.
        destruct (IH (ns_set k rv0 args)
                    (World (fs w) (stdout w ++ [WarnLoadedValue k rv0 v]) (log w)
                       (global_step w) (checkpoints w)))
          as (args' & out & Hrun & Hget & Hwarn).
        simpl in Hrun. exists args', (WarnLoadedValue k rv0 v :: out).
        split; [by rewrite Hrun, <- app_assoc|]. split.
        -- intros key rv Hrv Hcase. apply Hget; [done|].
           destruct (decide (k = key)) as [->|Hkk].
           ++ left. rewrite ns_get_set_eq. congruence.
           ++ rewrite ns_get_set_ne by done.
              destruct Hcase as [?|(v' & Hin & ?)]; [by left|right].
              apply elem_of_cons in Hin as [[= ? ?]|Hin]; [done|]. eauto.
        -- intros key rv v' Hin Hrv Hpy.
           apply elem_of_cons in Hin as [[= -> ->]|Hin].
           ++ rewrite Hk in Hrv. injection Hrv as <-. left.
           ++ right. by eapply Hwarn.
      * destruct (IH args w) as (args' & out & Hrun & Hget & Hwarn).
        exists args', out. split; [done|]. split.
        -- intros key rv Hrv Hcase. apply Hget; [done|].
           destruct Hcase as [?|(v' & Hin & ?)]; [by left|right].
           apply elem_of_cons in Hin as [[= -> ->]|Hin]; [congruence|]. eauto.
        -- intros key rv v' Hin Hrv Hpy.
           apply elem_of_cons in Hin as [[= -> ->]|Hin]; [congruence|].
           by eapply Hwarn.
    + unfold op_bind, print. simpl.
      destruct (IH args
                  (World (fs w) (stdout w ++ [WarnNewArgument k v]) (log w)
                     (global_step w) (checkpoints w)))
        as (args' & out & Hrun & Hget & Hwarn).
      simpl in Hrun. exists args', (WarnNewArgument k v :: out).
      split; [by rewrite Hrun, <- app_assoc|]. split.
      * intros key rv Hrv Hcase. apply Hget; [done|].
        destruct Hcase as [?|(v' & Hin & ?)]; [by left|right].
        apply elem_of_cons in Hin as [[= -> ->]|Hin]; [congruence|]. eauto.
      * intros key rv v' Hin Hrv Hpy.
        apply elem_of_cons in Hin as [[= -> ->]|Hin]; [congruence|].
        right. by eapply Hwarn.
Qed.

(** C6, as the code has it: on resume, for every key other than
    [resume] whose persisted value differs from the given one, the
    persisted value becomes the effective one, a warning naming both
    values is printed, and no exception is raised. *)
Theorem resume_persisted_value_wins (args : namespace) (w : world)
    (entries : gmap string file) (persisted : gmap string value)
    (r : value) (key : string) (rv v : value) :
  ns_get "resume" args = Some r → py_truthy r = true →
  fs w = Directory entries →
  entries !! "args.json" = Some (JsonObject persisted) →
  key ≠ "resume" →
  ns_get key args = Some v → persisted !! key = Some rv → py_ne rv v = true →
  ∃ args' w',
    main_args args w = (Ok args', w') ∧
    ns_get key args' = Some rv ∧
    WarnLoadedValue key rv v ∈ stdout w' ∧
    fs w' = fs w.
Proof.
  intros Hres Hr Hfs Hfile Hkey Hv Hrv Hne.
  destruct w as [f out0 lg gs cks]. simpl in Hfs. subst f.
  unfold main_args, op_bind, getattr. rewrite Hres. simpl. rewrite Hr.
  unfold os_path_isfile, print, json_load. simpl. rewrite Hfile.
  rewrite bool_decide_eq_true_2 by eauto. simpl. rewrite ?Hfile. simpl.
  destruct (resume_items_spec args (<["resume" := VBool true]> persisted) args
              (World (Directory entries) (out0 ++ [MsgLoadingArgs]) lg gs cks))
    as (args' & out & Hrun & Hget & Hwarn).
  simpl in Hrun. rewrite Hrun. eexists _, _. split; [done|]. simpl.
  assert ((<["resume" := VBool true]> persisted) !! key = Some rv) as Hrv'.
  { by rewrite lookup_insert_ne. }
  split; [|split; [|done]].
  - apply (Hget key rv Hrv'). right. exists v. split; [|done].
    by apply ns_get_elem.
  - apply elem_of_app. right. apply (Hwarn key rv v); [|done..].
    by apply ns_get_elem.
Qed.

Lemma resume_persisted_value_wins_witness :
  ∃ args' w',
    main_args [("experiment_root", VStr "exp"); ("resume", VBool true);
               ("batch_p", VInt 32)]
      (World (Directory {["args.json" :=
                JsonObject {["batch_p" := VInt 16]}]}) [] [] 0 [])
      = (Ok args', w') ∧
    ns_get "batch_p" args' = Some (VInt 16) ∧
    WarnLoadedValue "batch_p" (VInt 16) (VInt 32) ∈ stdout w' ∧
    fs w' = Directory {["args.json" := JsonObject {["batch_p" := VInt 16]}]}.
Proof.
  apply (resume_persisted_value_wins
           [("experiment_root", VStr "exp"); ("resume", VBool true);
            ("batch_p", VInt 32)]
           (World (Directory {["args.json" :=
                     JsonObject {["batch_p" := VInt 16]}]}) [] [] 0 [])
           {["args.json" := JsonObject {["batch_p" := VInt 16]}]}
           {["batch_p" := VInt 16]}
           (VBool true) "batch_p" (VInt 16) (VInt 32)).
  - reflexivity.
  - reflexivity.
  - reflexivity.
  - reflexivity.
  - discriminate.
  - reflexivity.
  - reflexivity.
  - reflexivity.
Defined.

(** C6, as stated, fails for the key [resume]: the file written by the
    first run holds [resume = false], the resuming call gives
    [resume = true]; the loaded value is overwritten before the
    comparison, so the given value stays in effect and no warning about
    [resume] is printed. *)
Lemma resume_key_not_restored :
  let persisted : gmap string value :=
    {["resume" := VBool false; "batch_p" := VInt 16]} in
  let args := [("resume", VBool true); ("batch_p", VInt 32)] in
  let w := World (Directory {["args.json" := JsonObject persisted]}) [] [] 0 [] in
  persisted !! "resume" = Some (VBool false) ∧
  ns_get "resume" args = Some (VBool true) ∧
  py_ne (VBool false) (VBool true) = true ∧
  ∃ w',
    main_args args w
      = (Ok [("resume", VBool true); ("batch_p", VInt 16)], w') ∧
    stdout w' = [MsgLoadingArgs; WarnLoadedValue "batch_p" (VInt 16) (VInt 32)].
Proof.
  simpl. split; [reflexivity|]. split; [reflexivity|]. split; [reflexivity|].
  eexists. split; [vm_compute; reflexivity|]. reflexivity.
Qed.

(** ** Fresh start and the required arguments *)

Lemma listdir_nonempty (entries : gmap string file) :
  entries ≠ ∅ → (map_to_list entries).*1 ≠ [].
Proof.
  intros Hne Hnil. apply Hne. apply map_to_list_empty_iff.
  by destruct (map_to_list entries).
Qed.

Lemma listdir_empty (entries : gmap string file) :
  (map_to_list entries).*1 = [] → entries = ∅.
Proof.
  intros Hnil. apply map_to_list_empty_iff. by destruct (map_to_list entries).
Qed.

(** C9: without the resume flag, an experiment directory that exists and
    is not empty makes the program print its diagnostic and exit with
    status 1; nothing in the directory is written or changed, and no
    [args.json] is stored. *)
Theorem nonempty_experiment_root_bails (get_logging_dict : string → logging)
    (args : namespace) (w : world) (entries : gmap string file) (r : value) :
  ns_get "resume" args = Some r → py_truthy r = false →
  fs w = Directory entries → entries ≠ ∅ →
  main_prologue get_logging_dict args w
    = (Raise (SystemExit 1),
       World (Directory entries) (stdout w ++ [MsgNotEmpty]) (log w)
         (global_step w) (checkpoints w)).
Proof.
  intros Hres Hr Hfs Hne. destruct w as [f out lg gs cks]. simpl in *. subst f.
  unfold main_prologue, main_args, op_bind, getattr. rewrite Hres. simpl.
  rewrite Hr. unfold os_path_exists, os_listdir. simpl.
  pose proof (listdir_nonempty entries Hne) as Hl.
  by destruct ((map_to_list entries).*1).
Qed.

Lemma nonempty_experiment_root_bails_witness :
  main_prologue (file_handler "exp")
    [("experiment_root", VStr "exp"); ("train_set", VStr "train.csv");
     ("image_root", VStr "images"); ("resume", VBool false)]
    (World (Directory {["checkpoint-0" := OtherFile "weights"]}) [] [] 0 [])
  = (Raise (SystemExit 1),
     World (Directory {["checkpoint-0" := OtherFile "weights"]}) [MsgNotEmpty] []
       0 []).
Proof.
  apply (nonempty_experiment_root_bails (file_handler "exp")
           [("experiment_root", VStr "exp"); ("train_set", VStr "train.csv");
            ("image_root", VStr "images"); ("resume", VBool false)]
           (World (Directory {["checkpoint-0" := OtherFile "weights"]}) [] [] 0 [])
           {["checkpoint-0" := OtherFile "weights"]} (VBool false)).
  - reflexivity.
  - reflexivity.
  - reflexivity.
  - intros Heq. apply (f_equal (λ m, m !! "checkpoint-0")) in Heq.
    vm_compute in Heq. discriminate.
Defined.

(** ** Logging the parameters and checking the required ones *)

Lemma logged_app (handlers : logging) (records1 records2 : list log_record)
    (p : path_state) :
  logged handlers (records1 ++ records2) p
  = logged handlers records2 (logged handlers records1 p).
Proof. apply foldl_app. Qed.

Lemma log_parameters_run (handlers : logging) (items : list (string * value))
    (w : world) :
  let records := (λ kv, LogInfo (MsgParameter kv.1 kv.2)) <$> items in
  ∃ us,
    op_mapM (λ kv, log_to handlers (LogInfo (MsgParameter kv.1 kv.2))) items w
      = (Ok us,
         World (logged handlers records (fs w)) (stdout w) (log w ++ records)
           (global_step w) (checkpoints w)).
Proof.
  revert w. induction items as [|kv items IH]; intros w; simpl.
  - exists []. rewrite app_nil_r. by destruct w.
  - unfold op_bind, log_to at 1. simpl.
    destruct (IH (World (handlers_emit handlers (LogInfo (MsgParameter kv.1 kv.2)) (fs w))
                    (stdout w)
                    (log w ++ [LogInfo (MsgParameter kv.1 kv.2)])
                    (global_step w) (checkpoints w))) as (us & Hrun).
    simpl in Hrun. rewrite Hrun. simpl. eexists.
    by rewrite <- app_assoc.
Qed.

(** A run of the checks either stops before logging is configured and
    changes nothing, or changes the directory through the handlers
    only. *)
Lemma main_checks_spec (get_logging_dict : string → logging) (args : namespace)
    (w : world) (r : result unit) (w' : world) :
  main_checks get_logging_dict args w = (r, w') →
  (w' = w ∧ ∀ c, r ≠ Raise (SystemExit c)) ∨
  (∃ root opened records,
     ns_get "experiment_root" args = Some (VStr root) ∧
     let handlers := get_logging_dict (path_join root "train") in
     handlers_open handlers (fs w) = Some opened ∧
     fs w' = logged handlers records opened ∧
     log w' = log w ++ records ∧
     ∀ c, r = Raise (SystemExit c) →
       c = 1%Z ∧ PrintHelp ∈ stdout w' ∧
       (LogError MsgNoTrainSet ∈ records ∨ LogError MsgNoImageRoot ∈ records)).
Proof.
  destruct w as [f out lg gs cks].
  unfold main_checks, op_bind, getattr.
  destruct (ns_get "experiment_root" args) as [root|] eqn:Hroot; simpl;
    [|intros [= <- <-]; left; by split].
  destruct root as [| | | | | |root]; simpl;
    try (intros [= <- <-]; left; by split).
  set (handlers := get_logging_dict (path_join root "train")).
  unfold dictConfig. simpl.
  destruct (handlers_open handlers f) as [opened|] eqn:Hopen; simpl;
    [|intros [= <- <-]; left; by split].
  destruct (log_parameters_run handlers (merge_sort key_le args)
              (World (handlers_emit handlers (LogInfo MsgParameters) opened) out
                 (lg ++ [LogInfo MsgParameters]) gs cks))
    as (us & Hrun).
  simpl in Hrun. rewrite Hrun. clear Hrun.
  set (params := (λ kv, LogInfo (MsgParameter kv.1 kv.2)) <$> merge_sort key_le args).
  intros Hrest. right. exists root, opened.
  destruct (ns_get "train_set" args) as [train_set|]; simpl in Hrest.
  2:{ injection Hrest as <- <-. exists (LogInfo MsgParameters :: params).
      split; [done|]. split; [done|]. split; [done|]. simpl.
      split; [by rewrite <- app_assoc|]. done. }
  destruct (py_truthy train_set); simpl in Hrest.
  - destruct (ns_get "image_root" args) as [image_root|]; simpl in Hrest.
    2:{ injection Hrest as <- <-. exists (LogInfo MsgParameters :: params).
        split; [done|]. split; [done|]. split; [done|]. simpl.
        split; [by rewrite <- app_assoc|]. done. }
    destruct (py_truthy image_root); simpl in Hrest; injection Hrest as <- <-.
    + exists (LogInfo MsgParameters :: params).
      split; [done|]. split; [done|]. split; [done|]. simpl.
      split; [by rewrite <- app_assoc|]. done.
    + exists ((LogInfo MsgParameters :: params) ++ [LogError MsgNoImageRoot]).
      split; [done|]. split; [done|]. split; [by rewrite logged_app|]. simpl.
      split; [by rewrite <- !app_assoc|].
      intros c [= <-]. split; [done|]. split.
      * apply elem_of_app. right. left.
      * right. right. apply elem_of_app. right. left.
  - injection Hrest as <- <-.
    exists ((LogInfo MsgParameters :: params) ++ [LogError MsgNoTrainSet]).
    split; [done|]. split; [done|]. split; [by rewrite logged_app|]. simpl.
    split; [by rewrite <- !app_assoc|].
    intros c [= <-]. split; [done|]. split.
    + apply elem_of_app. right. left.
    + left. right. apply elem_of_app. right. left.
Qed.

Lemma json_parse_raise (f : file) (e : exn) :
  json_parse f = Raise e → e = ValueError.
Proof.
  induction f as [o| |data|base IH records]; simpl; try done.
  - by intros [= <-].
  - destruct records; [exact IH|by intros [= <-]].
Qed.

(** The resuming branch of [main_args], once a file [args.json] is
    found. *)
Lemma main_args_resume_run (args : namespace) (w : world)
    (entries : gmap string file) (f : file) (r : value) :
  ns_get "resume" args = Some r → py_truthy r = true →
  fs w = Directory entries → entries !! "args.json" = Some f →
  let w0 := World (fs w) (stdout w ++ [MsgLoadingArgs]) (log w) (global_step w)
              (checkpoints w) in
  main_args args w
  = match json_parse f with
    | Ok (JDict persisted) =>
        resume_items args (<["resume" := VBool true]> persisted) args w0
    | Ok JNotDict => (Raise TypeError, w0)
    | Raise e => (Raise e, w0)
    end.
Proof.
  intros Hres Hr Hfs Hfile. destruct w as [f0 out lg gs cks]. simpl in *. subst f0.
  unfold main_args, op_bind, getattr. rewrite Hres. simpl. rewrite Hr.
  unfold os_path_isfile, print, json_load. simpl. rewrite Hfile.
  rewrite bool_decide_eq_true_2 by eauto. simpl. rewrite ?Hfile.
  by destruct (json_parse f) as [[persisted|]|e].
Qed.

Lemma main_args_spec (args : namespace) (w : world) (r0 : result namespace)
    (w1 : world) :
  main_args args w = (r0, w1) →
  log w1 = log w ∧
  (∀ e, r0 = Raise e →
     fs w1 = fs w ∧
     ∀ c, e = SystemExit c → c = 1%Z ∧ MsgNotEmpty ∈ stdout w1) ∧
  (∀ a, r0 = Ok a →
     ∃ r, ns_get "resume" args = Some r ∧
       if py_truthy r then fs w1 = fs w
       else fs w1 =
              Directory (<["args.json" := JsonObject (list_to_map args)]> ∅)).
Proof.
  destruct (ns_get "resume" args) as [r|] eqn:Hres.
  2:{ unfold main_args, op_bind, getattr. rewrite Hres. simpl.
      intros [= <- <-]. split; [done|]. split; [intros e [= <-]; by split|done]. }
  destruct (py_truthy r) eqn:Hr.
  - destruct (fs w) as [| |entries] eqn:Hfs.
    1,2: unfold main_args, op_bind, getattr, os_path_isfile; rewrite Hres; simpl;
      rewrite Hr, Hfs; simpl; intros [= <- <-];
      (split; [done|]); (split; [intros e [= <-]; by split|done]).
    destruct (entries !! "args.json") as [f|] eqn:Hfile.
    + rewrite (main_args_resume_run args w entries f r Hres Hr Hfs Hfile).
      destruct (json_parse f) as [[persisted|]|e] eqn:Hparse.
      * set (w0 := World _ _ _ _ _).
        destruct (resume_items_spec args (<["resume" := VBool true]> persisted)
                    args w0) as (args' & out' & Hrun & _).
        rewrite Hrun. intros [= <- <-]. split; [done|]. split; [done|].
        intros a _. exists r. rewrite Hr. simpl. by rewrite Hfs.
      * intros [= <- <-]. split; [done|]. simpl.
        split; [intros e [= <-]; split; [by rewrite Hfs|done]|done].
      * apply json_parse_raise in Hparse as ->.
        intros [= <- <-]. split; [done|]. simpl.
        split; [intros e' [= <-]; split; [by rewrite Hfs|done]|done].
    + unfold main_args, op_bind, getattr, os_path_isfile. rewrite Hres. simpl.
      rewrite Hr, Hfs. simpl. rewrite Hfile. simpl.
      intros [= <- <-]. split; [done|]. split; [intros e [= <-]; by split|done].
  - destruct w as [f out lg gs cks].
    unfold main_args, op_bind, getattr. rewrite Hres. simpl. rewrite Hr.
    unfold os_path_exists, os_listdir, os_makedirs, json_dump.
    destruct f as [| |entries]; simpl.
    + intros [= <- <-]. split; [done|]. split; [done|].
      intros a _. exists r. by rewrite Hr.
    + intros [= <- <-]. split; [done|]. split; [intros e [= <-]; by split|done].
    + destruct ((map_to_list entries).*1) as [|name names] eqn:Hl; simpl.
      * intros [= <- <-]. split; [done|]. split; [done|].
        intros a _. exists r. rewrite Hr.
        simpl. by rewrite (listdir_empty entries Hl).
      * intros [= <- <-]. split; [done|]. split; [|done]. intros e [= <-].
        split; [done|].
        intros c [= <-]. split; [done|]. simpl. apply elem_of_app. right. left.
Qed.

(** C7, as the code has it: a run of the prologue that ends in
    [SystemExit] exits with status 1 after printing a diagnostic.  When
    the exit is caused by a non-empty experiment directory nothing has
    been written.  When it is caused by a missing [train_set] or
    [image_root], the arguments have been handled before: a resumed run
    has left the experiment directory as it was, a fresh run has claimed
    the directory and stored [args.json] in it; then the logging handlers
    have been set up for [<experiment_root>/train] and have taken the
    parameters and the error.  The directory at the exit is the one the
    handlers made of that. *)
Theorem fatal_exit_persisted_state (get_logging_dict : string → logging)
    (args : namespace) (w : world) (c : Z) (w' : world) :
  main_prologue get_logging_dict args w = (Raise (SystemExit c), w') →
  c = 1%Z ∧
  ((MsgNotEmpty ∈ stdout w' ∧ fs w' = fs w ∧ log w' = log w) ∨
   (PrintHelp ∈ stdout w' ∧
    ∃ r args1 w1 root opened records,
      ns_get "resume" args = Some r ∧
      main_args args w = (Ok args1, w1) ∧
      (if py_truthy r then fs w1 = fs w
       else fs w1 =
              Directory (<["args.json" := JsonObject (list_to_map args)]> ∅)) ∧
      ns_get "experiment_root" args1 = Some (VStr root) ∧
      let handlers := get_logging_dict (path_join root "train") in
      handlers_open handlers (fs w1) = Some opened ∧
      fs w' = logged handlers records opened ∧
      log w' = log w ++ records ∧
      (LogError MsgNoTrainSet ∈ records ∨ LogError MsgNoImageRoot ∈ records))).
Proof.
  unfold main_prologue, op_bind.
  destruct (main_args args w) as [[args1|e] w1] eqn:Hargs.
  - destruct (main_args_spec _ _ _ _ Hargs) as (Hlog & _ & Hok).
    destruct (Hok args1 eq_refl) as (r & Hres & Hfs).
    destruct (main_checks get_logging_dict args1 w1) as [[[]|e] w2] eqn:Hchk;
      [done|].
    intros [= -> ->].
    destruct (main_checks_spec _ _ _ _ _ Hchk)
      as [[_ Hno]|(root & opened & records & Hroot & Hopen & Hfs2 & Hlog2 & Hexit)].
    { by destruct (Hno c). }
    destruct (Hexit c eq_refl) as (-> & Hhelp & Herr).
    split; [done|]. right. split; [done|].
    exists r, args1, w1, root, opened, records.
    rewrite <- Hlog. done.
  - intros [= -> ->].
    destruct (main_args_spec _ _ _ _ Hargs) as (Hlog & Herr & _).
    destruct (Herr _ eq_refl) as [Hfs Hexit].
    destruct (Hexit c eq_refl) as [-> Hmsg].
    split; [done|]. by left.
Qed.

Lemma fatal_exit_persisted_state_witness :
  let args := [("experiment_root", VStr "exp"); ("train_set", VNone);
               ("image_root", VStr "images"); ("resume", VBool false)] in
  let w := World Absent [] [] 0 [] in
  let records :=
    [LogInfo MsgParameters;
     LogInfo (MsgParameter "experiment_root" (VStr "exp"));
     LogInfo (MsgParameter "image_root" (VStr "images"));
     LogInfo (MsgParameter "resume" (VBool false));
     LogInfo (MsgParameter "train_set" VNone);
     LogError MsgNoTrainSet] in
  let w' :=
    World (Directory (<["train.log" := Appended (OtherFile "") records]>
                        (<["args.json" := JsonObject (list_to_map args)]> ∅)))
      [PrintHelp] records 0 [] in
  1%Z = 1%Z ∧
  ((MsgNotEmpty ∈ stdout w' ∧ fs w' = fs w ∧ log w' = log w) ∨
   (PrintHelp ∈ stdout w' ∧
    ∃ r args1 w1 root opened records,
      ns_get "resume" args = Some r ∧
      main_args args w = (Ok args1, w1) ∧
      (if py_truthy r then fs w1 = fs w
       else fs w1 =
              Directory (<["args.json" := JsonObject (list_to_map args)]> ∅)) ∧
      ns_get "experiment_root" args1 = Some (VStr root) ∧
      let handlers := file_handler "exp" (path_join root "train") in
      handlers_open handlers (fs w1) = Some opened ∧
      fs w' = logged handlers records opened ∧
      log w' = log w ++ records ∧
      (LogError MsgNoTrainSet ∈ records ∨ LogError MsgNoImageRoot ∈ records))).
Proof.
  intros args w records w'.
  apply (fatal_exit_persisted_state (file_handler "exp") args w 1 w').
  vm_compute. reflexivity.
Defined.

(** C7, as stated, fails: a fresh run without [train_set] exits with
    status 1, but only after the experiment directory has been created
    and [args.json] written into it. *)
Lemma missing_train_set_after_args_written :
  let args := [("experiment_root", VStr "exp"); ("train_set", VNone);
               ("image_root", VStr "images"); ("resume", VBool false)] in
  let w := World Absent [] [] 0 [] in
  ∃ w' entries,
    main_prologue (file_handler "exp") args w = (Raise (SystemExit 1), w') ∧
    fs w = Absent ∧
    fs w' = Directory entries ∧
    entries !! "args.json" = Some (JsonObject (list_to_map args)).
Proof.
  simpl. eexists _, _. split; [vm_compute; reflexivity|].
  split; [reflexivity|]. split; [reflexivity|]. reflexivity.
Qed.

(** ** The main loop *)

(** A pass through the body that gets its batch is carried out in full,
    interrupted or not: the variable is advanced, the iteration is logged
    and the periodic checkpoint is decided before [u.interrupted] is
    looked at. *)
Lemma loop_body_completes (checkpoint_frequency : nat) (env : run_env) (i : nat)
    (w : world) :
  next_batch_error env i = None →
  let g := global_step w in
  let step := if fetch_sees_update env i then S g else g in
  let due := bool_decide (0 < checkpoint_frequency) &&
             bool_decide (step mod checkpoint_frequency = 0) in
  loop_body checkpoint_frequency env i w
    = (Ok (step, interrupted_at env i),
       World (fs w) (stdout w)
         (log w ++ LogInfo (MsgIter step) ::
            (if interrupted_at env i then [LogInfo MsgInterrupted] else []))
         (S g)
         (checkpoints w ++ (if due then [Checkpoint step (S g)] else []))).
Proof.
  intros Hbatch. destruct w as [f out lg g cks]. simpl.
  unfold loop_body, op_bind, run_train_op, log_emit, checkpoint_save. simpl.
  rewrite Hbatch.
  destruct (bool_decide (0 < checkpoint_frequency) && _); simpl;
    destruct (interrupted_at env i); simpl;
    rewrite <- ?app_assoc, ?app_nil_r; reflexivity.
Qed.

(** A loop over a non-empty range whose passes get their batches does
    not raise and binds [step]. *)
Lemma main_loop_binds_step (checkpoint_frequency : nat) (env : run_env)
    (range : list nat) (step : option nat) (w : world) :
  range ≠ [] →
  (∀ i, i ∈ range → next_batch_error env i = None) →
  ∃ s w', main_loop checkpoint_frequency env range step w = (Ok (Some s), w').
Proof.
  revert step w. induction range as [|i range IH]; intros step w Hne Hb; [done|].
  simpl. unfold op_bind. rewrite loop_body_completes by (apply Hb; left). simpl.
  destruct (interrupted_at env i); [by eexists _, _|].
  destruct range as [|j range]; [by eexists _, _|].
  apply IH; [done|]. intros k Hk. apply Hb. by right.
Qed.

(** Where at least one iteration runs and every pass gets its batch, the
    run ends normally and the last thing it does is to store one
    checkpoint under the last [step]. *)
Lemma main_training_final_checkpoint (train_iterations checkpoint_frequency : nat)
    (env : run_env) (w : world) (c : checkpoint) :
  last (checkpoints w) = Some c → ckpt_global_step c < train_iterations →
  (∀ i, next_batch_error env i = None) →
  ∃ w0 s w1,
    main_loop checkpoint_frequency env
        (py_range (ckpt_global_step c) train_iterations) None w0
      = (Ok (Some s), w1) ∧
    checkpoints w0 = checkpoints w ∧
    main_training true train_iterations checkpoint_frequency env w
      = (Ok tt,
         World (fs w1) (stdout w1) (log w1) (global_step w1)
           (checkpoints w1 ++ [Checkpoint s (global_step w1)])).
Proof.
  intros Hlast Hlt Hb. destruct w as [f out lg g cks]. simpl in Hlast.
  unfold main_training, op_bind, log_emit at 1, checkpoint_restore_latest.
  simpl. rewrite Hlast. simpl.
  set (w0 := World f out
               ((lg ++ [LogInfo MsgRestoring]) ++ [LogInfo (MsgStarting (ckpt_global_step c))])
               (ckpt_global_step c) cks).
  destruct (main_loop_binds_step checkpoint_frequency env
              (py_range (ckpt_global_step c) train_iterations) None w0)
    as (s & w1 & Hloop).
  { unfold py_range. destruct (train_iterations - ckpt_global_step c) eqn:Hd;
      [lia|done]. }
  { done. }
  exists w0, s, w1. split; [done|]. split; [done|].
  unfold log_emit, read_global_step. simpl. fold w0. by rewrite Hloop.
Qed.

(** C10: when the restored global step has already reached
    [train_iterations], the loop body is never entered; the save after
    the loop reads the local variable [step], which is unbound, so the
    run ends in a [NameError] and stores no checkpoint. *)
Theorem zero_iterations_unbound_step (train_iterations checkpoint_frequency : nat)
    (env : run_env) (w : world) (c : checkpoint) :
  last (checkpoints w) = Some c → train_iterations ≤ ckpt_global_step c →
  ∃ w',
    main_training true train_iterations checkpoint_frequency env w
      = (Raise (UnboundLocalError "step"), w') ∧
    is_NameError (UnboundLocalError "step") = true ∧
    checkpoints w' = checkpoints w.
Proof.
  intros Hlast Hle. destruct w as [f out lg g cks]. simpl in Hlast.
  unfold main_training, op_bind, log_emit, checkpoint_restore_latest,
    read_global_step.
  simpl. rewrite Hlast. simpl. unfold py_range.
  replace (train_iterations - ckpt_global_step c) with 0 by lia.
  simpl. by eexists.
Qed.

Lemma zero_iterations_unbound_step_witness :
  ∃ w',
    main_training true 2 1 (RunEnv (λ _, false) (λ _, true) (λ _, None))
        (World (Directory ∅) [] [] 0
           [Checkpoint 0 0; Checkpoint 1 1; Checkpoint 2 2; Checkpoint 2 2])
      = (Raise (UnboundLocalError "step"), w') ∧
    is_NameError (UnboundLocalError "step") = true ∧
    checkpoints w' =
      [Checkpoint 0 0; Checkpoint 1 1; Checkpoint 2 2; Checkpoint 2 2].
Proof.
  apply (zero_iterations_unbound_step 2 1
           (RunEnv (λ _, false) (λ _, true) (λ _, None))
           (World (Directory ∅) [] [] 0
              [Checkpoint 0 0; Checkpoint 1 1; Checkpoint 2 2; Checkpoint 2 2])
           (Checkpoint 2 2)).
  - reflexivity.
  - simpl. lia.
Defined.

(** C8 at its failing input: a run of 3 iterations that went to its end
    is resumed.  The loop is left at once, because the configured
    iteration count is reached, but no final checkpoint is stored: the
    run raises instead. *)
Theorem resumed_finished_run_stores_nothing (env : run_env) :
  let stored := [Checkpoint 0 0; Checkpoint 3 3; Checkpoint 3 3] in
  let w := World (Directory ∅) [] [] 0 stored in
  main_training true 3 3 env w
    = (Raise (UnboundLocalError "step"),
       World (Directory ∅) [] [LogInfo MsgRestoring; LogInfo (MsgStarting 3)] 3 stored).
Proof. reflexivity. Qed.

Example main_training_fresh_run :
  main_training false 3 2
    (RunEnv (λ i, bool_decide (i = 1)) (λ _, true) (λ _, None))
    (World (Directory ∅) [] [] 0 [])
  = (Ok tt,
     World (Directory ∅) []
       [LogInfo (MsgStarting 0); LogInfo (MsgIter 1); LogInfo (MsgIter 2);
        LogInfo MsgInterrupted]
       2
       [Checkpoint 0 0; Checkpoint 2 2; Checkpoint 2 2]).
Proof. reflexivity. Qed.

(** A pass whose batch cannot be fetched ends the session with the error
    of the pipeline; the save after the loop is not reached. *)
Lemma main_training_batch_error (train_iterations checkpoint_frequency : nat)
    (env : run_env) (w : world) (e : exn) :
  1 ≤ train_iterations → next_batch_error env 0 = Some e →
  main_training false train_iterations checkpoint_frequency env w
  = (Raise e,
     World (fs w) (stdout w) (log w ++ [LogInfo (MsgStarting 0)]) 0
       (checkpoints w ++ [Checkpoint 0 0])).
Proof.
  intros HN He. destruct w as [f out lg g cks].
  unfold main_training, op_bind, global_variables_initializer, checkpoint_save,
    read_global_step, log_emit, py_range. simpl.
  destruct train_iterations as [|n]; [lia|]. simpl.
  unfold op_bind, loop_body, op_bind, run_train_op. simpl. by rewrite He.
Qed.

Example main_training_empty_dataset :
  main_training false 3 2
    (RunEnv (λ _, false) (λ _, true) (λ _, Some OutOfRangeError))
    (World (Directory ∅) [] [] 0 [])
  = (Raise OutOfRangeError,
     World (Directory ∅) [] [LogInfo (MsgStarting 0)] 0 [Checkpoint 0 0]).
Proof. reflexivity. Qed.

(** * Further properties of [train.py] *)

(** ** More on the K-selector *)

Lemma ceil_div_multiple (c count : nat) :
  0 < count → ceil_div (c * count) count = c.
Proof.
  intros Hc.
  pose proof (ceil_div_covers (c * count) count Hc).
  pose proof (ceil_div_tight (c * count) count Hc). nia.
Qed.

(** X1: an identity with a single image fills all its K places with that
    image, for K up to 2^24. *)
Theorem sample_k_single_image (pid : string) (all_fids all_pids : list string)
    (batch_k : nat) (f : string) (s : rng) :
  length all_fids = length all_pids →
  possible_fids_of pid all_fids all_pids = [f] →
  (Z.of_nat batch_k ≤ 2 ^ 24)%Z →
  ∃ s',
    sample_k_fids_for_pid pid all_fids all_pids batch_k s
      = (Ok (replicate batch_k f, replicate batch_k pid), s').
Proof.
  intros Hlen Hone Hbound.
  destruct (sample_k_spec_exact pid all_fids all_pids batch_k Hlen Hbound s)
    as ([sel lbl] & s' & Hrun & shuffled & Hperm & Hd & Hlbl).
  rewrite Hone in Hperm, Hd. simpl in Hlbl. subst lbl. exists s'. rewrite Hrun.
  change (drawn [f] (take batch_k shuffled) sel) in Hd.
  assert (length sel = batch_k) as Hl.
  { rewrite (drawn_length _ _ _ Hd), length_take, Hperm.
    unfold full_range. rewrite length_fmap, length_seq.
    pose proof (ceil_div_covers batch_k 1). simpl length. lia. }
  assert (sel = replicate (length sel) f) as Hsel.
  { clear -Hd. induction Hd as [|i x idx sel Hi _ IH]; [done|].
    simpl. rewrite <- IH. f_equal.
    destruct i; simpl in Hi; [congruence|by destruct i]. }
  rewrite Hl in Hsel. by rewrite <- Hsel.
Qed.

Lemma sample_k_single_image_witness :
  ∃ s',
    sample_k_fids_for_pid "C" ["a1"; "c1"; "a2"] ["A"; "C"; "A"] 4 [3; 1; 2]
      = (Ok (replicate 4 "c1", replicate 4 "C"), s').
Proof.
  apply (sample_k_single_image "C" ["a1"; "c1"; "a2"] ["A"; "C"; "A"] 4 "c1"
           [3; 1; 2]).
  - reflexivity.
  - reflexivity.
  - vm_compute. discriminate.
Defined.

(** X2: when K is a multiple of the number of images of an identity, and
    at most 2^24, the draw is exactly balanced: the positions drawn are a
    permutation of the whole pool, so every image is drawn exactly
    K / count times. *)
Theorem sample_k_exact_balance (pid : string) (all_fids all_pids : list string)
    (c : nat) (s : rng) :
  length all_fids = length all_pids →
  let possible_fids := possible_fids_of pid all_fids all_pids in
  let count := length possible_fids in
  1 ≤ count →
  (Z.of_nat (c * count) ≤ 2 ^ 24)%Z →
  ∃ indices selected s',
    sample_k_fids_for_pid pid all_fids all_pids (c * count) s
      = (Ok (selected, replicate (c * count) pid), s') ∧
    drawn possible_fids indices selected ∧
    indices ≡ₚ full_range (c * count) count ∧
    ∀ i, i < count → occurrences i indices = c.
Proof.
  intros Hlen possible_fids count Hcount Hbound.
  destruct (sample_k_spec_exact pid all_fids all_pids (c * count) Hlen Hbound s)
    as ([sel lbl] & s' & Hrun & shuffled & Hperm & Hd & Hlbl).
  simpl in *. subst lbl. fold possible_fids count in Hperm, Hd.
  rewrite ceil_div_multiple in Hperm by done.
  assert (take (c * count) shuffled = shuffled) as Htake.
  { apply take_ge. rewrite Hperm. unfold full_range.
    by rewrite length_fmap, length_seq. }
  rewrite Htake in Hd. exists shuffled, sel, s'.
  repeat split; try done.
  intros i Hi. rewrite (occurrences_perm _ _ _ Hperm).
  by apply occurrences_full_range.
Qed.

Lemma sample_k_exact_balance_witness :
  ∃ indices selected s',
    sample_k_fids_for_pid "A" ["a1"; "c1"; "a2"] ["A"; "C"; "A"] (3 * 2)
        [5; 0; 2; 2; 1; 0]
      = (Ok (selected, replicate (3 * 2) "A"), s') ∧
    drawn (possible_fids_of "A" ["a1"; "c1"; "a2"] ["A"; "C"; "A"])
      indices selected ∧
    indices ≡ₚ full_range (3 * 2) 2 ∧
    ∀ i, i < 2 → occurrences i indices = 3.
Proof.
  apply (sample_k_exact_balance "A" ["a1"; "c1"; "a2"] ["A"; "C"; "A"] 3
           [5; 0; 2; 2; 1; 0]).
  - reflexivity.
  - vm_compute. lia.
  - vm_compute. discriminate.
Defined.

(** ** The flip augmentation *)

(** X3: the angle drawn for [--flip_augment] is an integer of the range
    from 0 to 1, upper end excluded, so it is always 0: whatever the
    random source yields, the stage hands every image on unchanged. *)
Theorem flip_augment_keeps_image {A} (im : list (list A)) (s : rng) :
  ∃ s', flip_augment im s = (Ok im, s').
Proof.
  unfold flip_augment, random_uniform_int, op_bind, draw.
  change (Z.to_nat (1 - 0)) with 1.
  destruct s as [|r s]; [by eexists|].
  rewrite Nat.mod_1_r. by eexists.
Qed.

(** ** The stream behind the batches *)

Lemma concat_chunks_from {A} (fuel n : nat) (l : list A) :
  0 < n → length l ≤ fuel → concat (chunks_from fuel n l) = l.
Proof.
  intros Hn. revert l. induction fuel as [|fuel IH]; intros l Hl.
  - destruct l; [done|simpl in Hl; lia].
  - destruct l as [|x l]; [done|].
    change (chunks_from (S fuel) n (x :: l))
      with (take n (x :: l) :: chunks_from fuel n (drop n (x :: l))).
    rewrite concat_cons, IH; [apply take_drop|].
    rewrite length_drop. simpl in *. lia.
Qed.

Lemma elem_of_concat_2 {A} (x : A) (l : list A) (ls : list (list A)) :
  x ∈ l → l ∈ ls → x ∈ concat ls.
Proof.
  intros Hx. induction ls as [|l' ls IH]; intros Hl.
  - by apply elem_of_nil in Hl.
  - simpl. apply elem_of_app. apply elem_of_cons in Hl as [->|Hl]; auto.
Qed.

Lemma Forall2_elem_r {A B} (R : A → B → Prop) (l : list A) (k : list B) (y : B) :
  Forall2 R l k → y ∈ k → ∃ x, x ∈ l ∧ R x y.
Proof.
  induction 1 as [|x y' l k HR _ IH]; intros Hy.
  - by apply elem_of_nil in Hy.
  - apply elem_of_cons in Hy as [->|Hy].
    + exists x. split; [left|done].
    + destruct (IH Hy) as (x' & ? & ?). exists x'. split; [by right|done].
Qed.

(** For K up to 2^24 and an augmentation that does not raise, the
    pipeline yields the batches of an epoch stream. *)
Lemma train_dataset_returns {Image} (fid_to_image : string → Image)
    (augment : Image → Op Image) (pids fids : list string)
    (batch_p batch_k epochs : nat) :
  length fids = length pids → pids ≠ [] → 1 ≤ batch_p → 1 ≤ batch_k →
  (Z.of_nat batch_k ≤ 2 ^ 24)%Z →
  (∀ im s, ∃ im' s', augment im s = (Ok im', s')) →
  returns
    (train_dataset fid_to_image augment pids fids batch_p batch_k epochs)
    (epoch_stream fids pids batch_p batch_k epochs).
Proof.
  intros Hlen Hne Hp Hk Hbound Haug. apply returns_intro.
  - by apply train_dataset_total.
  - by apply train_dataset_stream.
Qed.

(** X4: the label travels with its sample.  Every element of every batch
    pairs a FID with the PID it is listed under in the dataset. *)
Theorem train_dataset_pairing {Image} (fid_to_image : string → Image)
    (augment : Image → Op Image) (pids fids : list string)
    (batch_p batch_k epochs : nat) (s : rng) :
  length fids = length pids → pids ≠ [] → 1 ≤ batch_p → 1 ≤ batch_k →
  (Z.of_nat batch_k ≤ 2 ^ 24)%Z →
  (∀ im s0, ∃ im' s1, augment im s0 = (Ok im', s1)) →
  ∃ batches s',
    train_dataset fid_to_image augment pids fids batch_p batch_k epochs s
      = (Ok batches, s') ∧
    ∀ b im fid pid, b ∈ batches → (im, fid, pid) ∈ b →
      ∃ j, fids !! j = Some fid ∧ pids !! j = Some pid.
Proof.
  intros Hlen Hne Hp Hk Hbound Haug.
  destruct (train_dataset_returns fid_to_image augment pids fids batch_p batch_k
              epochs Hlen Hne Hp Hk Hbound Haug s)
    as (batches & s' & Hrun & eps & groups & flat & _ & _ & HF & Hc & ->).
  exists (chunks_from (length flat) (batch_p * batch_k) flat), s'.
  split; [done|]. intros b im fid pid Hb He.
  pose proof (elem_of_concat_2 _ _ _ He Hb) as Hin.
  rewrite concat_chunks_from in Hin by (done || nia).
  destruct (Forall2_elem_r _ _ _ _ Hc Hin) as ([f p] & Hz & Hf & Hpid).
  simpl in Hf, Hpid. subst f p.
  apply elem_of_concat in Hz as (blk & Hblk & Hg).
  apply list_elem_of_fmap in Hg as (g & -> & Hg).
  destruct (Forall2_elem_r _ _ _ _ HF Hg) as (pid' & _ & [[_ Hlbl] Hfids]).
  pose proof (elem_of_zip_l _ _ _ _ Hblk) as Hf.
  pose proof (elem_of_zip_r _ _ _ _ Hblk) as Hpid.
  rewrite Hlbl in Hpid. apply elem_of_replicate in Hpid as [-> _].
  by apply possible_fids_of_elem, Hfids.
Qed.

Lemma train_dataset_pairing_witness :
  ∃ batches s',
    train_dataset (λ fid, fid) op_ret
        ["A"; "B"; "A"; "C"; "B"] ["a1"; "b1"; "a2"; "c1"; "b2"] 2 3 2
        [2; 0; 5; 3; 1; 4; 1; 5; 9; 2; 6; 5; 3; 5]
      = (Ok batches, s') ∧
    ∀ b (im : string) fid pid, b ∈ batches → (im, fid, pid) ∈ b →
      ∃ j, ["a1"; "b1"; "a2"; "c1"; "b2"] !! j = Some fid ∧
           ["A"; "B"; "A"; "C"; "B"] !! j = Some pid.
Proof.
  apply (train_dataset_pairing (λ fid, fid) op_ret
           ["A"; "B"; "A"; "C"; "B"] ["a1"; "b1"; "a2"; "c1"; "b2"] 2 3 2
           [2; 0; 5; 3; 1; 4; 1; 5; 9; 2; 6; 5; 3; 5]).
  - reflexivity.
  - discriminate.
  - lia.
  - lia.
  - vm_compute. discriminate.
  - intros im s0. exists im, s0. reflexivity.
Defined.

(** X5: the stream of batches is made of epochs.  Within an epoch no
    identity is visited twice, [(n // batch_p) * batch_p] identities of
    the dataset are visited, and all of them when [batch_p] divides their
    number [n]. *)
Theorem train_dataset_epochs {Image} (fid_to_image : string → Image)
    (augment : Image → Op Image) (pids fids : list string)
    (batch_p batch_k epochs : nat) (s : rng) :
  length fids = length pids → pids ≠ [] → 1 ≤ batch_p → 1 ≤ batch_k →
  (Z.of_nat batch_k ≤ 2 ^ 24)%Z →
  (∀ im s0, ∃ im' s1, augment im s0 = (Ok im', s1)) →
  let n := length (np_unique pids) in
  ∃ batches s' eps,
    train_dataset fid_to_image augment pids fids batch_p batch_k epochs s
      = (Ok batches, s') ∧
    (concat batches).*2 = concat eps ≫= replicate batch_k ∧
    (batch_p ≤ n → length eps = epochs) ∧
    Forall (λ ep, NoDup ep ∧ length ep = n / batch_p * batch_p ∧
                  (∀ p, p ∈ ep → p ∈ pids) ∧
                  (n mod batch_p = 0 → ep ≡ₚ np_unique pids)) eps.
Proof.
  intros Hlen Hne Hp Hk Hbound Haug n.
  destruct (train_dataset_returns fid_to_image augment pids fids batch_p batch_k
              epochs Hlen Hne Hp Hk Hbound Haug s)
    as (batches & s' & Hrun & eps & groups & flat & Heps & Hn & HF & Hc & ->).
  exists (chunks_from (length flat) (batch_p * batch_k) flat), s', eps.
  split; [done|]. split; [|split].
  - rewrite concat_chunks_from by (done || nia).
    by eapply epoch_stream_pids.
  - intros Hle. fold n in Hn.
    assert (0 < n / batch_p) by (apply Nat.div_str_pos; lia).
    apply Nat.mul_cancel_r in Hn; [done|nia].
  - eapply Forall_impl; [exact Heps|]. fold n.
    intros ep (Hl & Hnd & Hin). repeat split; try done.
    intros Hmod. apply submseteq_length_Permutation.
    + apply NoDup_submseteq; [done|]. intros p Hpin.
      by apply np_unique_elem, Hin.
    + rewrite Hl. pose proof (Nat.div_mod_eq n batch_p) as Hdm.
      rewrite Hmod in Hdm. lia.
Qed.

Lemma train_dataset_epochs_witness :
  ∃ batches s' eps,
    train_dataset (λ fid, fid) op_ret
        ["A"; "B"; "A"; "C"; "B"] ["a1"; "b1"; "a2"; "c1"; "b2"] 3 2 2
        [2; 0; 5; 3; 1; 4; 1; 5; 9; 2; 6; 5; 3; 5]
      = (Ok batches, s') ∧
    (concat batches).*2 = concat eps ≫= replicate 2 ∧
    (3 ≤ length (np_unique ["A"; "B"; "A"; "C"; "B"]) → length eps = 2) ∧
    Forall (λ ep, NoDup ep ∧
                  length ep = length (np_unique ["A"; "B"; "A"; "C"; "B"]) / 3 * 3 ∧
                  (∀ p, p ∈ ep → p ∈ ["A"; "B"; "A"; "C"; "B"]) ∧
                  (length (np_unique ["A"; "B"; "A"; "C"; "B"]) mod 3 = 0 →
                   ep ≡ₚ np_unique ["A"; "B"; "A"; "C"; "B"])) eps.
Proof.
  apply (train_dataset_epochs (λ fid, fid) op_ret
           ["A"; "B"; "A"; "C"; "B"] ["a1"; "b1"; "a2"; "c1"; "b2"] 3 2 2
           [2; 0; 5; 3; 1; 4; 1; 5; 9; 2; 6; 5; 3; 5]).
  - reflexivity.
  - discriminate.
  - lia.
  - lia.
  - vm_compute. discriminate.
  - intros im s0. exists im, s0. reflexivity.
Defined.

(** ** The validation pipeline *)

Lemma op_mapM_id {S A} (f : A → ST S A) (l : list A) (s : S) :
  (∀ x s', f x s' = (Ok x, s')) → op_mapM f l s = (Ok l, s).
Proof.
  intros Hf. induction l as [|x l IH]; [done|].
  simpl. unfold op_bind, op_ret. by rewrite Hf, IH.
Qed.

Lemma ds_map_id {A} (f : A → Op A) (ds : Dataset A) (s : rng) :
  (∀ x s', f x s' = (Ok x, s')) → ds_map f ds s = ds s.
Proof.
  intros Hf. unfold ds_map, op_bind.
  destruct (ds s) as [[l|e] s1]; [by apply op_mapM_id|done].
Qed.

Lemma ds_batch_ext {A} (n : nat) (ds1 ds2 : Dataset A) (s : rng) :
  ds1 s = ds2 s → ds_batch n ds1 s = ds_batch n ds2 s.
Proof.
  intros Heq. unfold ds_batch. destruct (decide (n = 0)); [done|].
  unfold op_bind. by rewrite Heq.
Qed.

Lemma op_bind_ext {S A B} (m : ST S A) (k1 k2 : A → ST S B) (s : S) :
  (∀ a s', k1 a s' = k2 a s') → op_bind m k1 s = op_bind m k2 s.
Proof.
  intros Hk. unfold op_bind. destruct (m s) as [[a|e] s']; [apply Hk|done].
Qed.

(** The validation dataset is the training dataset without
    augmentation. *)
Lemma test_dataset_as_train {Image} (fid_to_image : string → Image)
    (test_pids test_fids : list string) (batch_p batch_k epochs : nat) (s : rng) :
  test_dataset fid_to_image test_pids test_fids batch_p batch_k epochs s
  = train_dataset fid_to_image op_ret test_pids test_fids batch_p batch_k
      epochs s.
Proof.
  unfold test_dataset, train_dataset, ds_prefetch.
  apply op_bind_ext. intros q s'. apply ds_batch_ext. symmetry.
  apply ds_map_id. by intros [[??]?] ?.
Qed.

(** X6: the validation pipeline yields PK batches like the training
    pipeline: [batch_p] distinct identities of the test set in blocks of
    [batch_k], [n // batch_p] batches per epoch, for K up to 2^24. *)
Theorem test_dataset_pk_batches {Image} (fid_to_image : string → Image)
    (test_pids test_fids : list string) (batch_p batch_k epochs : nat) (s : rng) :
  length test_fids = length test_pids → test_pids ≠ [] →
  1 ≤ batch_p → 1 ≤ batch_k →
  (Z.of_nat batch_k ≤ 2 ^ 24)%Z →
  ∃ batches s',
    test_dataset fid_to_image test_pids test_fids batch_p batch_k epochs s
      = (Ok batches, s') ∧
    length batches = epochs * (length (np_unique test_pids) / batch_p) ∧
    ∀ b, b ∈ batches → pk_batch batch_p batch_k b.
Proof.
  intros Hlen Hne Hp Hk Hbound. rewrite test_dataset_as_train.
  destruct (train_dataset_returns fid_to_image op_ret test_pids test_fids
              batch_p batch_k epochs Hlen Hne Hp Hk Hbound
              (λ im s0, ex_intro _ im (ex_intro _ s0 eq_refl)) s)
    as (batches & s' & Hrun & Hstream).
  exists batches, s'. split; [done|].
  by apply (epoch_stream_pk_batches test_fids test_pids batch_p batch_k epochs).
Qed.

Lemma test_dataset_pk_batches_witness :
  ∃ batches s',
    test_dataset (λ fid, fid) ["T"; "U"; "T"] ["t1"; "u1"; "t2"] 2 2 2
        [1; 0; 3; 2; 1; 0; 7; 7; 0; 1; 2; 3; 4; 5]
      = (Ok batches, s') ∧
    length batches = 2 * (length (np_unique ["T"; "U"; "T"]) / 2) ∧
    ∀ b, b ∈ batches → pk_batch 2 2 b.
Proof.
  apply (test_dataset_pk_batches (λ fid, fid) ["T"; "U"; "T"] ["t1"; "u1"; "t2"]
           2 2 2 [1; 0; 3; 2; 1; 0; 7; 7; 0; 1; 2; 3; 4; 5]).
  - reflexivity.
  - discriminate.
  - lia.
  - lia.
  - vm_compute. discriminate.
Defined.

(** ** More on the argument prologue *)

Lemma list_to_map_ns_get (args : namespace) (key : string) :
  (list_to_map args : gmap string value) !! key = ns_get key args.
Proof.
  induction args as [|[k v] args IH]; simpl; [done|].
  destruct (decide (k = key)) as [->|Hne].
  - by rewrite lookup_insert_eq.
  - by rewrite lookup_insert_ne.
Qed.

(** Every value but NaN equals itself. *)
Lemma py_eq_refl (v : value) : v ≠ VNaN → py_eq v v = true.
Proof.
  intros Hv. destruct v as [|b|z|q|neg| |s]; simpl;
    try (by apply bool_decide_eq_true_2);
    try (apply Qeq_bool_iff; reflexivity); done.
Qed.

Lemma ns_set_keys (key : string) (v : value) (ns : namespace) :
  key ∈ ns.*1 → (ns_set key v ns).*1 = ns.*1.
Proof.
  induction ns as [|[k w] ns IH]; simpl; intros Hin.
  - by apply elem_of_nil in Hin.
  - destruct (decide (k = key)) as [->|Hne]; [done|].
    csimpl. f_equal. apply IH.
    apply elem_of_cons in Hin as [?|?]; [congruence|done].
Qed.

Lemma ns_get_NoDup (key : string) (v : value) (ns : namespace) :
  NoDup ns.*1 → (key, v) ∈ ns → ns_get key ns = Some v.
Proof.
  induction ns as [|[k w] ns IH]; simpl; intros Hnd Hin.
  - by apply elem_of_nil in Hin.
  - apply NoDup_cons in Hnd as [Hk Hnd].
    apply elem_of_cons in Hin as [[= -> ->]|Hin].
    + by rewrite decide_True.
    + rewrite decide_False; [by apply IH|].
      intros ->. apply Hk. apply list_elem_of_fmap. by exists (key, v).
Qed.

(** What the loop over the given arguments leaves alone. *)
Lemma resume_items_keep (items : list (string * value))
    (args_resumed : gmap string value) (args : namespace) (w : world) :
  ∃ args' out,
    resume_items items args_resumed args w
      = (Ok args',
         World (fs w) (stdout w ++ out) (log w) (global_step w) (checkpoints w)) ∧
    (∀ key,
       (∀ v rv, (key, v) ∈ items → args_resumed !! key = Some rv →
                py_ne rv v = false) →
       ns_get key args' = ns_get key args) ∧
    ((∀ kv, kv ∈ items → kv.1 ∈ args.*1) → args'.*1 = args.*1) ∧
    (∀ key v, (key, v) ∈ items → args_resumed !! key = None →
       WarnNewArgument key v ∈ out).
Proof.
  revert args w. induction items as [|[k v] items IH]; intros args w; simpl.
  - exists args, []. rewrite app_nil_r. split; [by destruct w|].
    repeat split; try done. intros key v Hin. by apply elem_of_nil in Hin.
  - destruct (args_resumed !! k) as [rv0|] eqn:Hk.
    + destruct (py_ne rv0 v) eqn:Hne.
      * unfold op_bind, print. simpl.
        destruct (IH (ns_set k rv0 args)
                    (World (fs w) (stdout w ++ [WarnLoadedValue k rv0 v]) (log w)
                       (global_step w) (checkpoints w)))
          as (args' & out & Hrun & Hkeep & Hkeys & Hnew).
        simpl in Hrun. exists args', (WarnLoadedValue k rv0 v :: out).
        split; [by rewrite Hrun, <- app_assoc|]. repeat split.
        -- intros key Hc. rewrite Hkeep.
           ++ apply ns_get_set_ne. intros ->.
              specialize (Hc v rv0 ltac:(left) Hk). congruence.
           ++ intros v' rv Hin. apply Hc. by right.
        -- intros Hin. rewrite Hkeys.
           ++ apply ns_set_keys. apply (Hin (k, v)). left.
           ++ intros kv Hkv. rewrite ns_set_keys by (apply (Hin (k, v)); left).
              apply Hin. by right.
        -- intros key v' Hin Hnone.
           apply elem_of_cons in Hin as [[= -> ->]|Hin]; [congruence|].
           right. by eapply Hnew.
      * destruct (IH args w) as (args' & out & Hrun & Hkeep & Hkeys & Hnew).
        exists args', out. split; [done|]. repeat split.
        -- intros key Hc. apply Hkeep. intros v' rv Hin. apply Hc. by right.
        -- intros Hin. apply Hkeys. intros kv Hkv. apply Hin. by right.
        -- intros key v' Hin Hnone.
           apply elem_of_cons in Hin as [[= -> ->]|Hin]; [congruence|].
           by eapply Hnew.
    + unfold op_bind, print. simpl.
      destruct (IH args
                  (World (fs w) (stdout w ++ [WarnNewArgument k v]) (log w)
                     (global_step w) (checkpoints w)))
        as (args' & out & Hrun & Hkeep & Hkeys & Hnew).
      simpl in Hrun. exists args', (WarnNewArgument k v :: out).
      split; [by rewrite Hrun, <- app_assoc|]. repeat split.
      * intros key Hc. apply Hkeep. intros v' rv Hin. apply Hc. by right.
      * intros Hin. apply Hkeys. intros kv Hkv. apply Hin. by right.
      * intros key v' Hin Hnone.
        apply elem_of_cons in Hin as [[= -> ->]|Hin]; [left|].
        right. by eapply Hnew.
Qed.

(** The resuming branch of [main_args], once [args.json] is found. *)
Lemma main_args_resume (args : namespace) (w : world)
    (entries : gmap string file) (persisted : gmap string value) (r : value) :
  ns_get "resume" args = Some r → py_truthy r = true →
  fs w = Directory entries →
  entries !! "args.json" = Some (JsonObject persisted) →
  main_args args w
  = resume_items args (<["resume" := VBool true]> persisted) args
      (World (fs w) (stdout w ++ [MsgLoadingArgs]) (log w) (global_step w)
         (checkpoints w)).
Proof.
  intros Hres Hr Hfs Hfile.
  by rewrite (main_args_resume_run args w entries _ r Hres Hr Hfs Hfile).
Qed.

(** The fresh branch of [main_args] on a directory that is absent or
    empty. *)
Lemma main_args_fresh (args : namespace) (w : world) (r : value) :
  ns_get "resume" args = Some r → py_truthy r = false →
  fs w = Absent ∨ fs w = Directory ∅ →
  main_args args w
  = (Ok args,
     World (Directory (<["args.json" := JsonObject (list_to_map args)]> ∅))
       (stdout w) (log w) (global_step w) (checkpoints w)).
Proof.
  intros Hres Hr Hfs. destruct w as [f out lg gs cks]. simpl in *.
  unfold main_args, op_bind, getattr. rewrite Hres. simpl. rewrite Hr.
  unfold os_path_exists, os_listdir, os_makedirs, json_dump.
  destruct Hfs as [->| ->]; simpl; [done|].
  by rewrite map_to_list_empty.
Qed.

(** X7: resuming in a place that holds no [args.json] raises [IOError]
    at once; nothing is printed, logged or written. *)
Theorem resume_without_args_file (get_logging_dict : string → logging)
    (args : namespace) (w : world) (r : value) :
  ns_get "resume" args = Some r → py_truthy r = true →
  (∀ entries, fs w = Directory entries → entries !! "args.json" = None) →
  main_prologue get_logging_dict args w
    = (Raise (IOError "`args.json` not found"), w).
Proof.
  intros Hres Hr Hnone. destruct w as [f out lg gs cks]. simpl in *.
  unfold main_prologue, main_args, op_bind, getattr. rewrite Hres. simpl.
  rewrite Hr. unfold os_path_isfile. simpl.
  destruct f as [| |entries]; simpl; try done.
  by rewrite (Hnone entries eq_refl).
Qed.

Lemma resume_without_args_file_witness :
  main_prologue (file_handler "exp")
    [("resume", VBool true); ("train_set", VNone)]
    (World (Directory {["checkpoint-0" := OtherFile "weights"]}) [] [] 0 [])
  = (Raise (IOError "`args.json` not found"),
     World (Directory {["checkpoint-0" := OtherFile "weights"]}) [] [] 0 []).
Proof.
  apply (resume_without_args_file (file_handler "exp")
           [("resume", VBool true); ("train_set", VNone)]
           (World (Directory {["checkpoint-0" := OtherFile "weights"]}) [] [] 0 [])
           (VBool true)).
  - reflexivity.
  - reflexivity.
  - intros entries [= <-]. reflexivity.
Defined.

(** X8: a fresh run stores its arguments, and a later resume gets them
    back: whatever is given on the resuming call, every argument other
    than [resume] ends up with the stored value or with a given value
    that [==] finds equal to it, and the resuming call leaves the
    directory as the fresh run left it. *)
Theorem fresh_then_resume_restores_args (args1 args2 : namespace) (w : world)
    (r1 r2 : value) :
  ns_get "resume" args1 = Some r1 → py_truthy r1 = false →
  fs w = Absent ∨ fs w = Directory ∅ →
  ns_get "resume" args2 = Some r2 → py_truthy r2 = true →
  NoDup args2.*1 →
  ∃ w1 args2' w2,
    main_args args1 w = (Ok args1, w1) ∧
    main_args args2 w1 = (Ok args2', w2) ∧
    fs w2 = fs w1 ∧
    ∀ key v1 v2, key ≠ "resume" →
      ns_get key args1 = Some v1 → ns_get key args2 = Some v2 →
      ∃ v, ns_get key args2' = Some v ∧ (v = v1 ∨ py_eq v1 v = true).
Proof.
  intros Hres1 Hr1 Hfs Hres2 Hr2 Hnd.
  rewrite (main_args_fresh args1 w r1 Hres1 Hr1 Hfs).
  set (persisted := list_to_map args1 : gmap string value).
  set (w1 := World (Directory (<["args.json" := JsonObject persisted]> ∅))
               (stdout w) (log w) (global_step w) (checkpoints w)).
  pose proof (main_args_resume args2 w1 _ persisted r2 Hres2 Hr2 eq_refl
                (lookup_insert_eq _ _ _)) as Hm2.
  set (w1' := World _ _ _ _ _) in Hm2.
  destruct (resume_items_spec args2 (<["resume" := VBool true]> persisted) args2 w1')
    as (args2' & out & Hrun & Hget & _).
  destruct (resume_items_keep args2 (<["resume" := VBool true]> persisted) args2 w1')
    as (args2'' & out' & Hrun' & Hkeep & _).
  rewrite Hrun in Hrun'. injection Hrun' as <- _.
  exists w1. eexists _, _. split; [done|].
  split; [by rewrite Hm2, Hrun|]. split; [done|].
  intros key v1 v2 Hkey Hv1 Hv2.
  assert ((<["resume" := VBool true]> persisted) !! key = Some v1) as Hp.
  { rewrite lookup_insert_ne by done. unfold persisted.
    by rewrite list_to_map_ns_get. }
  destruct (py_ne v1 v2) eqn:Hne.
  - exists v1. split; [|by left]. apply (Hget key v1 Hp).
    right. exists v2. split; [by apply ns_get_elem|done].
  - exists v2. split.
    + rewrite Hkeep; [done|]. intros v rv Hin Hrv.
      rewrite Hp in Hrv. injection Hrv as <-.
      apply (ns_get_NoDup _ _ _ Hnd) in Hin. congruence.
    + right. unfold py_ne in Hne. by apply negb_false_iff in Hne.
Qed.

Lemma fresh_then_resume_restores_args_witness :
  ∃ w1 args2' w2,
    main_args [("resume", VBool false); ("batch_p", VInt 16);
               ("train_set", VStr "train.csv")]
      (World Absent [] [] 0 []) =
    (Ok [("resume", VBool false); ("batch_p", VInt 16);
         ("train_set", VStr "train.csv")], w1) ∧
    main_args [("resume", VBool true); ("batch_p", VInt 32); ("train_set", VNone)]
      w1 = (Ok args2', w2) ∧
    fs w2 = fs w1 ∧
    ∀ key v1 v2, key ≠ "resume" →
      ns_get key [("resume", VBool false); ("batch_p", VInt 16);
                  ("train_set", VStr "train.csv")] = Some v1 →
      ns_get key [("resume", VBool true); ("batch_p", VInt 32);
                  ("train_set", VNone)] = Some v2 →
      ∃ v, ns_get key args2' = Some v ∧ (v = v1 ∨ py_eq v1 v = true).
Proof.
  apply (fresh_then_resume_restores_args
           [("resume", VBool false); ("batch_p", VInt 16);
            ("train_set", VStr "train.csv")]
           [("resume", VBool true); ("batch_p", VInt 32); ("train_set", VNone)]
           (World Absent [] [] 0 []) (VBool false) (VBool true)).
  - reflexivity.
  - reflexivity.
  - left. reflexivity.
  - reflexivity.
  - reflexivity.
  - apply (bool_decide_unpack _). vm_compute. reflexivity.
Defined.

(** X9: resuming changes values only.  The namespace keeps its
    attributes and their order; a key found only in [args.json] is not
    taken over. *)
Theorem resume_keeps_attributes (args : namespace) (w : world) (r : value)
    (args' : namespace) (w' : world) :
  ns_get "resume" args = Some r → py_truthy r = true →
  main_args args w = (Ok args', w') →
  args'.*1 = args.*1.
Proof.
  intros Hres Hr.
  destruct (fs w) as [| |entries] eqn:Hfs.
  1,2: unfold main_args, op_bind, getattr, os_path_isfile; rewrite Hres; simpl;
    by rewrite Hr, Hfs.
  destruct (entries !! "args.json") as [f|] eqn:Hfile.
  2:{ unfold main_args, op_bind, getattr, os_path_isfile. rewrite Hres. simpl.
      rewrite Hr, Hfs. simpl. by rewrite Hfile. }
  rewrite (main_args_resume_run args w entries f r Hres Hr Hfs Hfile).
  destruct (json_parse f) as [[persisted|]|e]; [|done..].
  set (w0 := World _ _ _ _ _).
  destruct (resume_items_keep args (<["resume" := VBool true]> persisted) args w0)
    as (args'' & out' & Hrun & _ & Hkeys & _).
  rewrite Hrun. intros [= <- _]. apply Hkeys.
  intros kv Hkv. apply list_elem_of_fmap. by exists kv.
Qed.

Lemma resume_keeps_attributes_witness :
  [("resume", VBool true); ("batch_p", VInt 16)].*1
  = [("resume", VBool true); ("batch_p", VInt 32)].*1.
Proof.
  apply (resume_keeps_attributes
           [("resume", VBool true); ("batch_p", VInt 32)]
           (World (Directory {["args.json" := JsonObject
                     {["batch_p" := VInt 16; "batch_k" := VInt 4]}]}) [] [] 0 [])
           (VBool true)
           [("resume", VBool true); ("batch_p", VInt 16)]
           (World (Directory {["args.json" := JsonObject
                     {["batch_p" := VInt 16; "batch_k" := VInt 4]}]})
              [MsgLoadingArgs; WarnLoadedValue "batch_p" (VInt 16) (VInt 32)]
              [] 0 [])).
  - reflexivity.
  - reflexivity.
  - vm_compute. reflexivity.
Defined.

(** X10: an argument that the stored file does not know, because it was
    added since the first run, keeps the given value, and the run says so
    in a warning. *)
Theorem resume_new_argument (args : namespace) (w : world)
    (entries : gmap string file) (persisted : gmap string value)
    (r : value) (key : string) (v : value) :
  ns_get "resume" args = Some r → py_truthy r = true →
  fs w = Directory entries →
  entries !! "args.json" = Some (JsonObject persisted) →
  key ≠ "resume" → persisted !! key = None → ns_get key args = Some v →
  ∃ args' w',
    main_args args w = (Ok args', w') ∧
    ns_get key args' = Some v ∧
    WarnNewArgument key v ∈ stdout w'.
Proof.
  intros Hres Hr Hfs Hfile Hkey Hnone Hv.
  rewrite (main_args_resume args w entries persisted r Hres Hr Hfs Hfile).
  set (w0 := World _ _ _ _ _).
  destruct (resume_items_keep args (<["resume" := VBool true]> persisted) args w0)
    as (args' & out & Hrun & Hkeep & _ & Hnew).
  assert ((<["resume" := VBool true]> persisted) !! key = None) as Hp.
  { by rewrite lookup_insert_ne. }
  eexists _, _. split; [exact Hrun|]. split.
  - rewrite Hkeep; [done|]. intros v' rv _ Hrv. congruence.
  - simpl. apply elem_of_app. right. apply Hnew; [|done]. by apply ns_get_elem.
Qed.

Lemma resume_new_argument_witness :
  ∃ args' w',
    main_args [("resume", VBool true); ("detailed_logs", VBool false)]
      (World (Directory {["args.json" := JsonObject {["batch_p" := VInt 16]}]})
         [] [] 0 [])
      = (Ok args', w') ∧
    ns_get "detailed_logs" args' = Some (VBool false) ∧
    WarnNewArgument "detailed_logs" (VBool false) ∈ stdout w'.
Proof.
  apply (resume_new_argument
           [("resume", VBool true); ("detailed_logs", VBool false)]
           (World (Directory {["args.json" := JsonObject {["batch_p" := VInt 16]}]})
              [] [] 0 [])
           {["args.json" := JsonObject {["batch_p" := VInt 16]}]}
           {["batch_p" := VInt 16]} (VBool true) "detailed_logs" (VBool false)).
  - reflexivity.
  - reflexivity.
  - reflexivity.
  - reflexivity.
  - discriminate.
  - reflexivity.
  - reflexivity.
Defined.

(** X11: whatever a resuming call changes in the experiment directory
    during the prologue is done by the logging handlers.  However the
    prologue ends, with the arguments, with an exit or with an exception,
    the directory is as it was, or it is what the handlers configured for
    [<experiment_root>/train] made of it with the records logged. *)
Theorem resume_leaves_directory (get_logging_dict : string → logging)
    (args : namespace) (w : world) (r : value)
    (res : result namespace) (w' : world) :
  ns_get "resume" args = Some r → py_truthy r = true →
  main_prologue get_logging_dict args w = (res, w') →
  fs w' = fs w ∨
  ∃ args1 w1 root opened records,
    main_args args w = (Ok args1, w1) ∧
    ns_get "experiment_root" args1 = Some (VStr root) ∧
    let handlers := get_logging_dict (path_join root "train") in
    handlers_open handlers (fs w) = Some opened ∧
    fs w' = logged handlers records opened ∧
    log w' = log w ++ records.
Proof.
  intros Hres Hr. unfold main_prologue, op_bind.
  destruct (main_args args w) as [[args1|e] w1] eqn:Hargs.
  - destruct (main_args_spec _ _ _ _ Hargs) as (Hlog & _ & Hok).
    destruct (Hok args1 eq_refl) as (r' & Hres' & Hfs).
    rewrite Hres in Hres'. injection Hres' as <-. rewrite Hr in Hfs.
    destruct (main_checks get_logging_dict args1 w1) as [[[]|e] w2] eqn:Hchk;
      intros [= _ <-];
      (destruct (main_checks_spec _ _ _ _ _ Hchk)
         as [[-> _]|(root & opened & records & Hroot & Hopen & Hfs2 & Hlog2 & _)];
       [by left|
        right; exists args1, w1, root, opened, records;
        by rewrite <- Hfs, <- Hlog]).
  - intros [= _ <-]. destruct (main_args_spec _ _ _ _ Hargs) as (_ & Herr & _).
    left. by destruct (Herr e eq_refl).
Qed.

Lemma resume_leaves_directory_witness :
  let stored : gmap string value :=
    {["experiment_root" := VStr "exp"; "train_set" := VNone]} in
  let args := [("experiment_root", VStr "exp"); ("resume", VBool true);
               ("train_set", VStr "train.csv")] in
  let w := World (Directory {["args.json" := JsonObject stored]}) [] [] 0 [] in
  let records :=
    [LogInfo MsgParameters;
     LogInfo (MsgParameter "experiment_root" (VStr "exp"));
     LogInfo (MsgParameter "resume" (VBool true));
     LogInfo (MsgParameter "train_set" VNone);
     LogError MsgNoTrainSet] in
  let w' :=
    World (Directory (<["train.log" := Appended (OtherFile "") records]>
                        {["args.json" := JsonObject stored]}))
      [MsgLoadingArgs; WarnLoadedValue "train_set" VNone (VStr "train.csv");
       PrintHelp]
      records 0 [] in
  fs w' = fs w ∨
  ∃ args1 w1 root opened records,
    main_args args w = (Ok args1, w1) ∧
    ns_get "experiment_root" args1 = Some (VStr root) ∧
    let handlers := file_handler "exp" (path_join root "train") in
    handlers_open handlers (fs w) = Some opened ∧
    fs w' = logged handlers records opened ∧
    log w' = log w ++ records.
Proof.
  intros stored args w records w'.
  apply (resume_leaves_directory (file_handler "exp") args w (VBool true)
           (Raise (SystemExit 1)) w').
  - reflexivity.
  - reflexivity.
  - vm_compute. reflexivity.
Defined.

(** X12: on an absent or empty experiment directory the fresh branch
    (lines 206 to 220) claims the directory and returns the arguments
    unchanged, printing nothing; the directory then holds exactly
    [args.json], and loading that file gives back every argument under
    its name. *)
Theorem fresh_run_stores_args (args : namespace) (w : world) (r : value) :
  ns_get "resume" args = Some r → py_truthy r = false →
  fs w = Absent ∨ fs w = Directory ∅ →
  ∃ w' stored,
    main_args args w = (Ok args, w') ∧
    stdout w' = stdout w ∧
    fs w' = Directory (<["args.json" := JsonObject stored]> ∅) ∧
    json_load "args.json" w' = (Ok (JDict stored), w') ∧
    ∀ key, stored !! key = ns_get key args.
Proof.
  intros Hres Hr Hfs.
  rewrite (main_args_fresh args w r Hres Hr Hfs).
  eexists _, (list_to_map args). split; [done|]. simpl.
  split; [done|]. split; [done|]. split.
  - unfold json_load. simpl. by rewrite lookup_insert_eq.
  - intros key. apply list_to_map_ns_get.
Qed.

Lemma fresh_run_stores_args_witness :
  ∃ w' stored,
    main_args [("resume", VBool false); ("train_set", VStr "train.csv");
               ("image_root", VStr "images"); ("batch_p", VInt 16)]
      (World Absent [] [] 0 [])
      = (Ok [("resume", VBool false); ("train_set", VStr "train.csv");
             ("image_root", VStr "images"); ("batch_p", VInt 16)], w') ∧
    stdout w' = [] ∧
    fs w' = Directory (<["args.json" := JsonObject stored]> ∅) ∧
    json_load "args.json" w' = (Ok (JDict stored), w') ∧
    ∀ key, stored !! key =
           ns_get key [("resume", VBool false); ("train_set", VStr "train.csv");
                       ("image_root", VStr "images"); ("batch_p", VInt 16)].
Proof.
  apply (fresh_run_stores_args
           [("resume", VBool false); ("train_set", VStr "train.csv");
            ("image_root", VStr "images"); ("batch_p", VInt 16)]
           (World Absent [] [] 0 []) (VBool false)).
  - reflexivity.
  - reflexivity.
  - left. reflexivity.
Defined.

(** ** More on the training session *)










